(** * robotframework-async: scoped context forks and the handle registry

    A shallow embedding of [AsyncLibrary/robot_async.py].  Python objects
    live in explicit stores (finite maps keyed by object identity), the
    interpreter state is threaded through a small state-and-exception
    monad, and worker threads are modelled by the events they perform on
    the store. *)

From stdpp Require Import gmap strings list fin_maps pretty sorting.

(** ** Python values and exceptions *)

Definition thread := nat.
Definition token := nat.

(** The values an attribute can hold: plain data, a reference to another
    object of the context, or a [ScopedValue] instance (by identity). *)
Inductive pyval :=
  | VNone
  | VBool (b : bool)
  | VInt (n : Z)
  | VStr (s : string)
  | VObj (o : nat)
  | VScoped (s : nat).

Global Instance pyval_eq_dec : EqDecision pyval.
Proof. solve_decision. Defined.

Definition truthy (v : pyval) : bool :=
  match v with
  | VNone => false
  | VBool b => b
  | VInt n => negb (n =? 0)%Z
  | VStr s => negb (String.eqb s "")
  | VObj _ | VScoped _ => true
  end.

Inductive exn :=
  | AttributeError (msg : string)
  | ValueError (msg : string)
  | TimeoutError (msg : string)
  | CancelledError
  | KeywordError (msg : string).

Global Instance exn_eq_dec : EqDecision exn.
Proof. solve_decision. Defined.

(** ** ScopedValue *)

Module ScopedValue.

(** Modelled from the spec: the module [scoped_value.py] that defines
    [ScopedValue] is not part of the sources at hand; the record and its
    operations follow sections 3 and 4.1 of the specification.  Every
    operation is one atomic step (the specification requires them to be
    internally synchronised). *)
Record t := mk {
  default : pyval;
  fork_seed : option pyval;
  active_by_thread : gmap thread token;
  forks : gmap token pyval;
  next_token : token;
}.

(** Modelled from the spec: [ScopedValue(default=..., forkvalue=...)]. *)
Definition new (d : pyval) (seed : option pyval) : t :=
  mk d seed ∅ ∅ 0.

(** Modelled from the spec: [fork() -> token] allocates a new token and
    stores under it the fork seed if there is one, else a copy of the
    default. *)
Definition fork (sv : t) : token * t :=
  let k := next_token sv in
  (k, mk (default sv) (fork_seed sv) (active_by_thread sv)
         (<[k := from_option id (default sv) (fork_seed sv)]> (forks sv))
         (S k)).

(** Modelled from the spec: [activate(token)] binds the token for the
    calling thread.  Binding [None] (what a killed context passes) leaves
    the thread without a fork, hence on the default. *)
Definition activate (th : thread) (c : option token) (sv : t) : t :=
  mk (default sv) (fork_seed sv)
     (match c with
      | Some k => <[th := k]> (active_by_thread sv)
      | None => delete th (active_by_thread sv)
      end)
     (forks sv) (next_token sv).

(** Modelled from the spec: [kill(token)] removes the forked value and
    clears any thread's activation of the token. *)
Definition kill (k : token) (sv : t) : t :=
  mk (default sv) (fork_seed sv)
     (filter (λ p, p.2 ≠ k) (active_by_thread sv))
     (delete k (forks sv)) (next_token sv).

(** Modelled from the spec: the fork a thread reads and writes, if any. *)
Definition view (th : thread) (sv : t) : option token :=
  match active_by_thread sv !! th with
  | Some k => if decide (is_Some (forks sv !! k)) then Some k else None
  | None => None
  end.

(** Modelled from the spec: a read resolves to the calling thread's
    active fork, or to the default. *)
Definition get (th : thread) (sv : t) : pyval :=
  match view th sv with
  | Some k => from_option id (default sv) (forks sv !! k)
  | None => default sv
  end.

(** Modelled from the spec: a write resolves the same way. *)
Definition set (th : thread) (v : pyval) (sv : t) : t :=
  match view th sv with
  | Some k => mk (default sv) (fork_seed sv) (active_by_thread sv)
                 (<[k := v]> (forks sv)) (next_token sv)
  | None => mk v (fork_seed sv) (active_by_thread sv) (forks sv)
               (next_token sv)
  end.

(** *** Interleavings

    A schedule is a list of atomic operations, each tagged with the
    thread that performs it. *)
Inductive op :=
  | Fork
  | Activate (k : token)
  | Kill (k : token)
  | Mutate (v : pyval).

Definition step (sv : t) (e : thread * op) : t :=
  match e.2 with
  | Fork => (fork sv).2
  | Activate k => activate e.1 (Some k) sv
  | Kill k => kill k sv
  | Mutate v => set e.1 v sv
  end.

Definition run (tr : list (thread * op)) (sv : t) : t := foldl step sv tr.

(** The steps of one thread, in schedule order. *)
Definition own (b : thread) (tr : list (thread * op)) : list (thread * op) :=
  filter (λ e, e.1 = b) tr.

(** The fork/activate/kill discipline for the token [kb] owned by the
    work item running on thread [b]: the token is not killed while the
    item runs, and no other thread activates it. *)
Definition respects (b : thread) (kb : token) (e : thread * op) : bool :=
  match e.2 with
  | Kill k => negb (bool_decide (k = kb))
  | Activate k => implb (bool_decide (k = kb)) (bool_decide (e.1 = b))
  | _ => true
  end.

(** No thread other than [b] has [kb] active. *)
Definition exclusive (b : thread) (kb : token) (sv : t) : Prop :=
  ∀ th, active_by_thread sv !! th = Some kb → th = b.

End ScopedValue.

(** ** Interpreter state *)

(** An object of the context: its instance dictionary, the attribute names
    that its (patched) class redirects through a [ScopedDescriptor], and
    the number of [PatchedClass] layers stacked on its original class. *)
Record pyobj := PyObj {
  attrs : gmap string pyval;
  descriptors : gset string;
  patches : nat;
}.

(** A [ScopedContext] instance. *)
Record scoped_context := ScopedCtx {
  _context : nat;
  _forks : list (option token);
}.

(** What a finished future holds. *)
Inductive fresult :=
  | Result (v : pyval)
  | Exception (e : exn).

(** States of a [concurrent.futures.Future]. *)
Inductive fstate :=
  | PENDING
  | RUNNING
  | CANCELLED
  | CANCELLED_AND_NOTIFIED
  | FINISHED (r : fresult).

(** The work a resolved keyword performs when the runner runs it: attribute
    assignments on objects of the context, then a value or an error. *)
Record keyword := Keyword {
  kw_sets : list (pyval * string * pyval);
  kw_result : fresult;
}.

(** A future of the executor, with the [_scope] attribute that [async_run]
    attaches to it and the keyword it was submitted with. *)
Record future := Future {
  f_state : fstate;
  _scope : nat;
  f_fn : keyword;
}.

(** Calls of [ScopedContext.activate] and [ScopedContext.kill], recorded in
    order (ghost state: it is only ever appended to). *)
Inductive call :=
  | CallActivate (scope : nat) (th : thread)
  | CallKill (scope : nat) (th : thread).

Global Instance call_eq_dec : EqDecision call.
Proof. solve_decision. Defined.

Record world := World {
  objs : gmap nat pyobj;
  svs : gmap nat ScopedValue.t;
  scopes : gmap nat scoped_context;
  pool : gmap nat future;
  _future : gmap Z nat;
  _last_thread_handle : Z;
  context : nat;
  calls : list call;
}.

Definition set_objs (f : gmap nat pyobj → gmap nat pyobj) (w : world) : world :=
  World (f (objs w)) (svs w) (scopes w) (pool w) (_future w)
        (_last_thread_handle w) (context w) (calls w).

Definition set_svs (f : gmap nat ScopedValue.t → gmap nat ScopedValue.t)
    (w : world) : world :=
  World (objs w) (f (svs w)) (scopes w) (pool w) (_future w)
        (_last_thread_handle w) (context w) (calls w).

Definition set_scopes (f : gmap nat scoped_context → gmap nat scoped_context)
    (w : world) : world :=
  World (objs w) (svs w) (f (scopes w)) (pool w) (_future w)
        (_last_thread_handle w) (context w) (calls w).

Definition set_pool (f : gmap nat future → gmap nat future) (w : world) : world :=
  World (objs w) (svs w) (scopes w) (f (pool w)) (_future w)
        (_last_thread_handle w) (context w) (calls w).

Definition set_future (f : gmap Z nat → gmap Z nat) (w : world) : world :=
  World (objs w) (svs w) (scopes w) (pool w) (f (_future w))
        (_last_thread_handle w) (context w) (calls w).

Definition set_last_thread_handle (f : Z → Z) (w : world) : world :=
  World (objs w) (svs w) (scopes w) (pool w) (_future w)
        (f (_last_thread_handle w)) (context w) (calls w).

Definition log_call (c : call) (w : world) : world :=
  World (objs w) (svs w) (scopes w) (pool w) (_future w)
        (_last_thread_handle w) (context w) (calls w ++ [c]).

(** ** The monad: state, exceptions, and calls that do not return *)

Inductive completion (A : Type) :=
  | Ok (a : A)
  | Raise (e : exn)
  | Blocked.
Arguments Ok {A} a.
Arguments Raise {A} e.
Arguments Blocked {A}.

Definition M (A : Type) : Type := world → completion A * world.

Definition ret {A} (a : A) : M A := λ w, (Ok a, w).
Definition raise {A} (e : exn) : M A := λ w, (Raise e, w).
Definition block {A} : M A := λ w, (Blocked, w).

Definition bind {A B} (c : M A) (k : A → M B) : M B :=
  λ w, match c w with
       | (Ok a, w') => k a w'
       | (Raise e, w') => (Raise e, w')
       | (Blocked, w') => (Blocked, w')
       end.

Notation "'let!' x ':=' c 'in' k" := (bind c (λ x, k))
  (at level 10, x pattern, c at level 100, k at level 200).
Notation "c ';;;' k" := (bind c (λ _, k))
  (at level 100, k at level 200, right associativity).

Definition gets {A} (f : world → A) : M A := λ w, (Ok (f w), w).
Definition modify (f : world → world) : M unit := λ w, (Ok tt, f w).

(** A [for] loop: the body runs for each element in order and the first
    exception leaves the loop. *)
Fixpoint for_each {A} (l : list A) (body : A → M unit) : M unit :=
  match l with
  | [] => ret tt
  | x :: l' => body x ;;; for_each l' body
  end.

(** ** Attribute access *)

Definition scoped_name (p : string) : string := "_scoped_" +:+ p.

(** Modelled from the spec: [ScopedDescriptor] belongs to the absent
    [scoped_value.py]; a read of the redirected field goes through the
    [ScopedValue] kept in the backing attribute of the instance. *)
Definition descriptor_get (th : thread) (ob : pyobj) (p : string) : M pyval :=
  λ w, match attrs ob !! scoped_name p with
       | Some (VScoped s) =>
           match svs w !! s with
           | Some sv => (Ok (ScopedValue.get th sv), w)
           | None => (Raise (AttributeError (scoped_name p)), w)
           end
       | _ => (Raise (AttributeError (scoped_name p)), w)
       end.

(** Modelled from the spec: a write of the redirected field goes through
    the same [ScopedValue]. *)
Definition descriptor_set (th : thread) (ob : pyobj) (p : string) (v : pyval)
    : M unit :=
  λ w, match attrs ob !! scoped_name p with
       | Some (VScoped s) =>
           match svs w !! s with
           | Some sv => (Ok tt, set_svs <[s := ScopedValue.set th v sv]> w)
           | None => (Raise (AttributeError (scoped_name p)), w)
           end
       | _ => (Raise (AttributeError (scoped_name p)), w)
       end.

(** [getattr(o, name)]: a descriptor on the class wins over the instance
    dictionary; a missing attribute raises [AttributeError]. *)
Definition getattr (th : thread) (o : pyval) (name : string) : M pyval :=
  λ w, match o with
       | VObj i =>
           match objs w !! i with
           | Some ob =>
               if decide (name ∈ descriptors ob) then descriptor_get th ob name w
               else match attrs ob !! name with
                    | Some v => (Ok v, w)
                    | None => (Raise (AttributeError name), w)
                    end
           | None => (Raise (AttributeError name), w)
           end
       | _ => (Raise (AttributeError name), w)
       end.

(** [setattr(o, name, v)]. *)
Definition setattr (th : thread) (o : pyval) (name : string) (v : pyval)
    : M unit :=
  λ w, match o with
       | VObj i =>
           match objs w !! i with
           | Some ob =>
               if decide (name ∈ descriptors ob) then descriptor_set th ob name v w
               else (Ok tt, set_objs <[i := PyObj (<[name := v]> (attrs ob))
                                              (descriptors ob) (patches ob)]> w)
           | None => (Raise (AttributeError name), w)
           end
       | _ => (Raise (AttributeError name), w)
       end.

(** [delattr(o, name)]: removes the entry of the instance dictionary. *)
Definition delattr (o : pyval) (name : string) : M unit :=
  λ w, match o with
       | VObj i =>
           match objs w !! i with
           | Some ob =>
               if decide (name ∈ descriptors ob) then (Raise (AttributeError name), w)
               else match attrs ob !! name with
                    | Some _ =>
                        (Ok tt, set_objs <[i := PyObj (delete name (attrs ob))
                                               (descriptors ob) (patches ob)]> w)
                    | None => (Raise (AttributeError name), w)
                    end
           | None => (Raise (AttributeError name), w)
           end
       | _ => (Raise (AttributeError name), w)
       end.

(** The four statements that give [parent] a fresh subclass of its class
    carrying [ScopedDescriptor('_scoped_' + p)] under the name [p]. *)
Definition patch_class (o : pyval) (p : string) : M unit :=
  λ w, match o with
       | VObj i =>
           match objs w !! i with
           | Some ob =>
               (Ok tt, set_objs <[i := PyObj (attrs ob) ({[p]} ∪ descriptors ob)
                                             (S (patches ob))]> w)
           | None => (Raise (AttributeError "__class__"), w)
           end
       | _ => (Raise (AttributeError "__class__"), w)
       end.

(** [isinstance(scope, ScopedValue)]. *)
Definition is_scoped_value (v : pyval) : bool :=
  match v with VScoped _ => true | _ => false end.

(** The constructor call [ScopedValue] with its keyword arguments: a new
    instance in the store. *)
Definition new_scoped_value (d : pyval) (seed : option pyval) : M pyval :=
  λ w, let s := fresh (dom (svs w)) in
       (Ok (VScoped s), set_svs <[s := ScopedValue.new d seed]> w).

(** Method calls on a [ScopedValue] instance. *)
Definition sv_fork (scope : pyval) : M token :=
  λ w, match scope with
       | VScoped s =>
           match svs w !! s with
           | Some sv => (Ok (ScopedValue.fork sv).1,
                         set_svs <[s := (ScopedValue.fork sv).2]> w)
           | None => (Raise (AttributeError "fork"), w)
           end
       | _ => (Raise (AttributeError "fork"), w)
       end.

Definition sv_activate (th : thread) (scope : pyval) (c : option token) : M unit :=
  λ w, match scope with
       | VScoped s =>
           match svs w !! s with
           | Some sv => (Ok tt, set_svs <[s := ScopedValue.activate th c sv]> w)
           | None => (Raise (AttributeError "activate"), w)
           end
       | _ => (Raise (AttributeError "activate"), w)
       end.

Definition sv_kill (scope : pyval) (c : token) : M unit :=
  λ w, match scope with
       | VScoped s =>
           match svs w !! s with
           | Some sv => (Ok tt, set_svs <[s := ScopedValue.kill c sv]> w)
           | None => (Raise (AttributeError "kill"), w)
           end
       | _ => (Raise (AttributeError "kill"), w)
       end.

(** ** ScopedContext *)

Module ScopedContext.

Definition _attributes : list (list string) :=
  [ ["user_keywords"];
    ["namespace"; "variables"; "_scopes"];
    ["namespace"; "variables"; "_variables_set"; "_scopes"];
    ["in_test_teardown"];
    ["in_keyword_teardown"] ].

Definition _construct : gmap string pyval :=
  {[ "in_test_teardown" := VBool false; "in_keyword_teardown" := VInt 0 ]}.

(** The inner loop of [__init__]:
    [for p in a: parent = current; current = getattr(parent, p)].
    The loop state is [(parent, p, current)]. *)
Fixpoint walk (th : thread) (a : list string) (st : pyval * string * pyval)
    : M (pyval * string * pyval) :=
  match a with
  | [] => ret st
  | p :: a' => let! v := getattr th st.2 p in walk th a' (st.2, p, v)
  end.

(** The [try] / [except AttributeError] / [finally] block of [__init__]:
    the [ScopedValue] behind the last name of the path, installed on the
    parent the first time. *)
Definition resolve (th : thread) (ctx : nat) (a : list string) : M pyval :=
  let! st := walk th a (VNone, "", VObj ctx) in
  let parent := st.1.1 in
  let p := st.1.2 in
  let current := st.2 in
  let! scope := (λ w, match getattr th parent (scoped_name p) w with
                      | (Raise (AttributeError _), w') => (Ok VNone, w')
                      | r => r
                      end) in
  if is_scoped_value scope then ret scope
  else
    let! scope := new_scoped_value current (_construct !! p) in
    setattr th parent (scoped_name p) scope ;;;
    delattr parent p ;;;
    patch_class parent p ;;;
    ret scope.

(** The outer loop of [__init__], collecting [self._forks]. *)
Fixpoint fork_all (th : thread) (ctx : nat) (paths : list (list string))
    : M (list (option token)) :=
  match paths with
  | [] => ret []
  | a :: rest =>
      let! scope := resolve th ctx a in
      let! c := sv_fork scope in
      let! cs := fork_all th ctx rest in
      ret (Some c :: cs)
  end.

(** [ScopedContext()]: returns the identity of the new instance. *)
Definition __init__ (th : thread) : M nat :=
  let! ctx := gets context in
  let! forks := fork_all th ctx _attributes in
  λ w, let self := fresh (dom (scopes w)) in
       (Ok self, set_scopes <[self := ScopedCtx ctx forks]> w).

(** [for p in a[0:-1]: current = getattr(current, p)]. *)
Fixpoint follow (th : thread) (a : list string) (current : pyval) : M pyval :=
  match a with
  | [] => ret current
  | p :: a' => let! v := getattr th current p in follow th a' v
  end.

(** The [ScopedValue] that [activate] and [kill] reach for a path. *)
Definition slot (th : thread) (ctx : nat) (a : list string) : M pyval :=
  let! current := follow th (removelast a) (VObj ctx) in
  getattr th current (scoped_name (List.last a "")).

Definition self_ (self : nat) : M scoped_context :=
  λ w, match scopes w !! self with
       | Some sc => (Ok sc, w)
       | None => (Raise (AttributeError "_forks"), w)
       end.

Definition activate (th : thread) (self : nat) : M unit :=
  modify (log_call (CallActivate self th)) ;;;
  let! sc := self_ self in
  for_each (zip _attributes (_forks sc)) (λ ac,
    let! scope := slot th (_context sc) ac.1 in
    sv_activate th scope ac.2).

Definition append_fork (self : nat) (c : option token) : M unit :=
  modify (set_scopes (λ m, match m !! self with
                           | Some sc => <[self := ScopedCtx (_context sc) (_forks sc ++ [c])]> m
                           | None => m
                           end)).

Definition kill (th : thread) (self : nat) : M unit :=
  modify (log_call (CallKill self th)) ;;;
  let! sc := self_ self in
  modify (set_scopes <[self := ScopedCtx (_context sc) []]>) ;;;
  for_each (zip _attributes (_forks sc)) (λ ac,
    match ac.2 with
    | Some c =>
        let! scope := slot th (_context sc) ac.1 in
        sv_kill scope c
    | None => ret tt
    end ;;;
    append_fork self None).

Definition __enter__ (th : thread) (self : nat) : M nat :=
  activate th self ;;; ret self.

Definition __exit__ (th : thread) (self : nat) (exc : option exn) : M pyval :=
  kill th self ;;; ret VNone.

End ScopedContext.

(** The [with] statement around a block whose last statement returns:
    [__enter__], the block, then [__exit__] on every way out of the block;
    a true result of [__exit__] swallows the exception and the function
    falls off its end. *)
Definition with_ {A} (enter : M A) (exit : option exn → M pyval)
    (body : M pyval) : M pyval :=
  λ w, match enter w with
       | (Ok _, w1) =>
           match body w1 with
           | (Ok r, w2) => (exit None ;;; ret r) w2
           | (Raise e, w2) =>
               (let! s := exit (Some e) in
                if truthy s then ret VNone else raise e) w2
           | (Blocked, w2) => (Blocked, w2)
           end
       | (Raise e, w1) => (Raise e, w1)
       | (Blocked, w1) => (Blocked, w1)
       end.

(** [runner.run(Keyword(keyword, args=args), context)] on thread [th]. *)
Definition run_keyword (th : thread) (kw : keyword) : M pyval :=
  for_each (kw_sets kw) (λ s, setattr th s.1.1 s.1.2 s.2) ;;;
  match kw_result kw with
  | Result v => ret v
  | Exception e => raise e
  end.

(** ** concurrent.futures *)

(** [executor.submit(self._run, scope, runner.run, ...)] together with the
    assignment [future._scope = scope] that follows it. *)
Definition submit (scope : nat) (kw : keyword) : M nat :=
  λ w, let f := fresh (dom (pool w)) in
       (Ok f, set_pool <[f := Future PENDING scope kw]> w).

Definition set_state (f : nat) (s : fstate) (w : world) : world :=
  set_pool (λ m, match m !! f with
                 | Some fut => <[f := Future s (_scope fut) (f_fn fut)]> m
                 | None => m
                 end) w.

Definition state_of (f : nat) (w : world) : option fstate :=
  f_state <$> pool w !! f.

(** [Future.cancel()]. *)
Definition cancel (f : nat) : M bool :=
  λ w, match state_of f w with
       | Some RUNNING | Some (FINISHED _) => (Ok false, w)
       | Some CANCELLED | Some CANCELLED_AND_NOTIFIED => (Ok true, w)
       | Some PENDING => (Ok true, set_state f CANCELLED w)
       | None => (Raise (AttributeError "cancel"), w)
       end.

(** [Future.result(timeout)], at the moment the call returns: a future that
    is not done has exhausted the timeout, or keeps the caller waiting when
    there is none. *)
Definition future_result (f : nat) (timeout : option nat) : M pyval :=
  λ w, match state_of f w with
       | Some CANCELLED | Some CANCELLED_AND_NOTIFIED => (Raise CancelledError, w)
       | Some (FINISHED (Result v)) => (Ok v, w)
       | Some (FINISHED (Exception e)) => (Raise e, w)
       | Some PENDING | Some RUNNING =>
           match timeout with
           | Some _ => (Raise (TimeoutError ""), w)
           | None => (Blocked, w)
           end
       | None => (Raise (AttributeError "result"), w)
       end.

(** What [wait] counts as done. *)
Definition is_done (w : world) (f : nat) : bool :=
  match state_of f w with
  | Some CANCELLED_AND_NOTIFIED | Some (FINISHED _) => true
  | _ => false
  end.

(** [wait(fs, timeout)] with the default [return_when=ALL_COMPLETED], at
    the moment the call returns: the pair [(done, not_done)]. *)
Definition wait (fs : list nat) (timeout : option nat) : M (gset nat * gset nat) :=
  λ w, let done : gset nat := list_to_set (filter (λ f, is_done w f = true) fs) in
       let not_done : gset nat := list_to_set fs ∖ done in
       if decide (not_done = ∅) then (Ok (done, not_done), w)
       else match timeout with
            | Some _ => (Ok (done, not_done), w)
            | None => (Blocked, w)
            end.

(** The two containers that [async_get_all] handles, and the methods it
    calls on them. *)
Inductive pycontainer :=
  | PyList (l : list nat)
  | PyDict (d : gmap Z nat).

Definition values (c : pycontainer) : M (list nat) :=
  match c with
  | PyDict d => ret (map_to_list d).*2
  | PyList _ => raise (AttributeError "'list' object has no attribute 'values'")
  end.

Definition items (c : pycontainer) : M (list (Z * nat)) :=
  match c with
  | PyDict d => ret (map_to_list d)
  | PyList _ => raise (AttributeError "'list' object has no attribute 'items'")
  end.

Definition len (c : pycontainer) : nat :=
  match c with
  | PyDict d => size d
  | PyList l => length l
  end.

(** The futures a container yields when it is passed to [wait]. *)
Definition futures_of (c : pycontainer) : list nat :=
  match c with
  | PyDict d => []
  | PyList l => l
  end.

(** ** AsyncLibrary *)

Module AsyncLibrary.

(** [AsyncLibrary()] on a context: an empty registry, the counter at 0. *)
Definition __init__ (os : gmap nat pyobj) (ctx : nat) : world :=
  World os ∅ ∅ ∅ ∅ 0 ctx [].

Definition _run (th : thread) (scope : nat) (fn : M pyval) : M pyval :=
  with_ (ScopedContext.__enter__ th scope) (ScopedContext.__exit__ th scope) fn.

(** What the worker pool does: a worker takes a future off the queue
    ([WStart], the executor's [set_running_or_notify_cancel]), and later
    the call of [_run] that the future stands for completes on that worker
    ([WFinish]). *)
Inductive wevent :=
  | WStart (f : nat)
  | WFinish (f : nat) (th : thread).

Definition worker_step (w : world) (e : wevent) : world :=
  match e with
  | WStart f =>
      match state_of f w with
      | Some PENDING => set_state f RUNNING w
      | Some CANCELLED => set_state f CANCELLED_AND_NOTIFIED w
      | _ => w
      end
  | WFinish f th =>
      match pool w !! f with
      | Some fut =>
          match f_state fut with
          | RUNNING =>
              match _run th (_scope fut) (run_keyword th (f_fn fut)) w with
              | (Ok v, w') => set_state f (FINISHED (Result v)) w'
              | (Raise e, w') => set_state f (FINISHED (Exception e)) w'
              | (Blocked, w') => w'
              end
          | _ => w
          end
      | None => w
      end
  end.

Definition run_workers (evs : list wevent) (w : world) : world :=
  foldl worker_step w evs.

(** The block under [self._lock] in [async_run]. *)
Definition register (future : nat) : M Z :=
  let! handle := gets _last_thread_handle in
  modify (set_last_thread_handle (λ n, n + 1)%Z) ;;;
  modify (set_future <[handle := future]>) ;;;
  ret handle.

Definition async_run (th : thread) (kw : keyword) : M Z :=
  let! scope := ScopedContext.__init__ th in
  let! future := submit scope kw in
  register future.

(** [self._future.pop(handle)] with its [except KeyError] handler. *)
Definition pop (handle : Z) : M nat :=
  λ w, match _future w !! handle with
       | Some f => (Ok f, set_future (delete handle) w)
       | None =>
           (Raise (ValueError ("entry with handle " +:+ pretty handle
                               +:+ " does not exist")), w)
       end.

(** [timeout] is the value after [convert_time]; [evs] is what the pool
    does while the caller waits. *)
Definition async_get (handle : Z) (timeout : option nat) (evs : list wevent)
    : M pyval :=
  let! future := pop handle in
  modify (run_workers evs) ;;;
  future_result future timeout.

(** [set_order] is the order in which the set [result.done] is iterated. *)
Definition async_get_all (set_order : list nat → list nat)
    (timeout : option nat) (evs : list wevent) : M pyval :=
  let! future := gets (λ w, PyDict (_future w)) in
  modify (set_future (λ _, ∅)) ;;;
  let! vs := values future in
  let futures := PyList vs in
  modify (run_workers evs) ;;;
  let! result := wait (futures_of futures) timeout in
  let done := result.1 in
  let not_done := result.2 in
  (if decide (not_done = ∅) then ret tt
   else
     let! its := items futures in
     modify (set_future (λ m,
       list_to_map (filter (λ kv, kv.2 ∈ not_done) its) ∪ m)) ;;;
     raise (TimeoutError (pretty (size not_done) +:+ " (of "
                          +:+ pretty (len futures) +:+ ") futures unfinished"))) ;;;
  for_each (set_order (elements done)) (λ f, future_result f None ;;; ret tt) ;;;
  ret VNone.

(** The loop of [_wait_all]; [futures] is the list being built. *)
Fixpoint drain (th : thread) (fs : list nat) (futures : list nat)
    : M (list nat) :=
  match fs with
  | [] => ret futures
  | f :: fs' =>
      let! cancelled := cancel f in
      if cancelled : bool then
        let! scope := (λ w, match pool w !! f with
                            | Some fut => (Ok (_scope fut), w)
                            | None => (Raise (AttributeError "_scope"), w)
                            end) in
        ScopedContext.kill th scope ;;;
        drain th fs' futures
      else drain th fs' (futures ++ [f])
  end.

(** The block under [self._lock] in [_wait_all]. *)
Definition drain_registry (th : thread) : M (list nat) :=
  let! future := gets (λ w, PyDict (_future w)) in
  let! fs := values future in
  let! futures := drain th fs [] in
  modify (set_future (λ _, ∅)) ;;;
  ret futures.

Definition _wait_all (th : thread) (evs : list wevent) : M pyval :=
  let! futures := drain_registry th in
  modify (run_workers evs) ;;;
  wait futures None ;;;
  ret VNone.

Definition _end_suite (th : thread) (evs : list wevent) : M pyval :=
  _wait_all th evs.

Definition _close (th : thread) (evs : list wevent) : M pyval :=
  _wait_all th evs.

(** Calls of the library, in the order in which they take effect. *)
Inductive action :=
  | ARun (th : thread) (kw : keyword)
  | AGet (handle : Z) (timeout : option nat) (evs : list wevent)
  | AGetAll (set_order : list nat → list nat) (timeout : option nat)
            (evs : list wevent)
  | AWaitAll (th : thread) (evs : list wevent)
  | AWorkers (evs : list wevent).

(** Runs the calls and returns the handles that [async_run] handed out,
    oldest first, with the final state. *)
Fixpoint perform (acts : list action) (w : world) : list Z * world :=
  match acts with
  | [] => ([], w)
  | ARun th kw :: rest =>
      match async_run th kw w with
      | (Ok h, w') => let (hs, w'') := perform rest w' in (h :: hs, w'')
      | (_, w') => perform rest w'
      end
  | AGet h t evs :: rest => perform rest (async_get h t evs w).2
  | AGetAll o t evs :: rest => perform rest (async_get_all o t evs w).2
  | AWaitAll th evs :: rest => perform rest (_wait_all th evs w).2
  | AWorkers evs :: rest => perform rest (run_workers evs w)
  end.

End AsyncLibrary.

(** ** Observations used in the statements *)

(** The futures in the registry, as [self._future.values()] lists them. *)
Definition registered (w : world) : list nat := (map_to_list (_future w)).*2.

(** A future whose work has not completed (and was not cancelled). *)
Definition unfinished (w : world) (f : nat) : bool :=
  match state_of f w with
  | Some PENDING | Some RUNNING => true
  | _ => false
  end.

(** A future whose work item ran to its end. *)
Definition completed (w : world) (f : nat) : bool :=
  match state_of f w with
  | Some (FINISHED _) => true
  | _ => false
  end.

Definition succeeded (w : world) (f : nat) : bool :=
  match state_of f w with
  | Some (FINISHED (Result _)) => true
  | _ => false
  end.

(** The error a work item ended with, if it did. *)
Definition failure (w : world) (f : nat) : option exn :=
  match state_of f w with
  | Some (FINISHED (Exception e)) => Some e
  | _ => None
  end.

Definition first_failure (w : world) (fs : list nat) : option exn :=
  head (omap (failure w) fs).

(** A future whose [cancel()] succeeds. *)
Definition cancellable (w : world) (f : nat) : bool :=
  match state_of f w with
  | Some PENDING | Some CANCELLED | Some CANCELLED_AND_NOTIFIED => true
  | _ => false
  end.

(** The error of [async_get] for a handle that is not in the registry. *)
Definition unknown_handle (handle : Z) : exn :=
  ValueError ("entry with handle " +:+ pretty handle +:+ " does not exist").

(** The state in which the [wait] of [async_get_all] returns: the registry
    has been emptied and the pool has done [evs]. *)
Definition at_wait (evs : list AsyncLibrary.wevent) (w : world) : world :=
  AsyncLibrary.run_workers evs (set_future (λ _, ∅) w).

(** The order in which [async_get_all] visits the futures when all of
    them are done. *)
Definition visit (set_order : list nat → list nat) (w : world) : list nat :=
  set_order (elements (list_to_set (registered w) : gset nat)).

(** Follows a path through ordinary attributes of the instance
    dictionaries (no descriptor involved). *)
Fixpoint plain_follow (os : gmap nat pyobj) (a : list string) (cur : pyval)
    : option pyval :=
  match a with
  | [] => Some cur
  | p :: a' =>
      match cur with
      | VObj i =>
          match os !! i with
          | Some ob =>
              if decide (p ∈ descriptors ob) then None
              else match attrs ob !! p with
                   | Some v => plain_follow os a' v
                   | None => None
                   end
          | None => None
          end
      | _ => None
      end
  end.

(** The path that leads to the [ScopedValue] behind the attribute path [a]. *)
Definition slot_path (a : list string) : list string :=
  removelast a ++ [scoped_name (List.last a "")].

(** The [ScopedValue] installed for the attribute path [a], if there is a
    live one. *)
Definition installed_slot (w : world) (ctx : nat) (a : list string) : option nat :=
  match plain_follow (objs w) (slot_path a) (VObj ctx) with
  | Some (VScoped s) => if decide (is_Some (svs w !! s)) then Some s else None
  | _ => None
  end.

(** What [installed_slot] depends on. *)
Definition slots (w : world) : gmap nat pyobj * gset nat := (objs w, dom (svs w)).

(** Every declared attribute path of the context has its [ScopedValue]. *)
Definition context_installed (w : world) (ctx : nat) : bool :=
  forallb (λ a, bool_decide (is_Some (installed_slot w ctx a)))
          ScopedContext._attributes.

(** The scope exists and belongs to a context with all slots installed. *)
Definition scope_ok (w : world) (scope : nat) : bool :=
  match scopes w !! scope with
  | Some sc => context_installed w (_context sc)
  | None => false
  end.

(** [f._scope] *)
Definition scope_of (w : world) (f : nat) : option nat := _scope <$> pool w !! f.

(** Every registered future exists and carries such a scope. *)
Definition registry_ok (w : world) : bool :=
  forallb (λ f, match scope_of w f with
                | Some scope => scope_ok w scope
                | None => false
                end) (registered w).

(** The scope holds no fork any more. *)
Definition killed (w : world) (scope : nat) : bool :=
  match scopes w !! scope with
  | Some sc => forallb (λ c, bool_decide (c = None)) (_forks sc)
  | None => false
  end.

(** Counting the calls on one scope in the log. *)
Definition is_kill (scope : nat) (c : call) : bool :=
  match c with
  | CallKill s _ => bool_decide (s = scope)
  | CallActivate _ _ => false
  end.

Definition is_activate (scope : nat) (c : call) : bool :=
  match c with
  | CallActivate s _ => bool_decide (s = scope)
  | CallKill _ _ => false
  end.

Definition kills (scope : nat) (l : list call) : nat :=
  length (List.filter (is_kill scope) l).

Definition activations (scope : nat) (l : list call) : nat :=
  length (List.filter (is_activate scope) l).

(** A future in one of the two cancelled states. *)
Definition cancelled (w : world) (f : nat) : bool :=
  match state_of f w with
  | Some CANCELLED | Some CANCELLED_AND_NOTIFIED => true
  | _ => false
  end.

(** The calls of [kill] that a drain of the futures [fs] makes from thread
    [th]: one for each future whose cancellation succeeds, in order. *)
Definition drain_log (th : thread) (w : world) (fs : list nat) : list call :=
  omap (λ f, if cancellable w f then (λ s, CallKill s th) <$> scope_of w f
             else None) fs.

(** The names that end a declared attribute path, and the names on the
    way to them. *)
Definition leaf_names : list string :=
  map (λ a, List.last a "") ScopedContext._attributes.

Definition inner_names : list string :=
  concat (map (λ a, removelast a) ScopedContext._attributes).

(** No class of the context redirects a name other than the last name of
    a declared path (in particular, none does before the first
    [ScopedContext] is built). *)
Definition descriptors_ok (w : world) : bool :=
  forallb (λ io, forallb (λ p, bool_decide (p ∈ leaf_names))
                         (elements (descriptors io.2)))
          (map_to_list (objs w)).

(** The attribute path [a] has been wrapped: its parent is reached through
    ordinary attributes, the last name can be read, and the backing
    attribute of the parent holds the live [ScopedValue] [s]. *)
Definition wrapped (w : world) (ctx : nat) (a : list string) (s : nat) : Prop :=
  ∃ i ob,
    plain_follow (objs w) (removelast a) (VObj ctx) = Some (VObj i) ∧
    objs w !! i = Some ob ∧
    ((List.last a "") ∈ descriptors ob ∨ is_Some (attrs ob !! (List.last a ""))) ∧
    (scoped_name (List.last a "") ∉ descriptors ob) ∧
    attrs ob !! scoped_name (List.last a "") = Some (VScoped s) ∧
    is_Some (svs w !! s).

(** The object that wrapping the attribute [p] of [ob] with the
    [ScopedValue] [s] leaves behind. *)
Definition patched (ob : pyobj) (p : string) (s : nat) : pyobj :=
  PyObj (delete p (<[scoped_name p := VScoped s]> (attrs ob)))
        ({[p]} ∪ descriptors ob) (S (patches ob)).

(** ** A small context to run the library on *)

Module Demo.

(** Object 0 is the execution context, 1 its namespace, 2 the variables
    of the namespace and 3 their [_variables_set]. *)
Definition robot_context : gmap nat pyobj :=
  {[ 0 := PyObj {[ "user_keywords" := VStr "resource.robot";
                   "namespace" := VObj 1;
                   "in_test_teardown" := VBool true;
                   "in_keyword_teardown" := VInt 2 ]} ∅ 0;
     1 := PyObj {[ "variables" := VObj 2 ]} ∅ 0;
     2 := PyObj {[ "_scopes" := VInt 7; "_variables_set" := VObj 3 ]} ∅ 0;
     3 := PyObj {[ "_scopes" := VInt 8 ]} ∅ 0 ]}.

Definition library : world := AsyncLibrary.__init__ robot_context 0.

Definition log_message : keyword :=
  Keyword [(VObj 0, "in_keyword_teardown", VInt 5)] (Result (VStr "PASS")).

Definition fail_keyword : keyword :=
  Keyword [] (Exception (KeywordError "boom")).

(** [n] dispatches from the main thread (thread 0). *)
Definition dispatch (kws : list keyword) (w : world) : world :=
  (AsyncLibrary.perform (map (AsyncLibrary.ARun 0) kws) w).2.

Definition three_dispatched : world :=
  dispatch [log_message; fail_keyword; log_message] library.

Definition five_dispatched : world :=
  dispatch [log_message; log_message; fail_keyword; log_message; log_message]
           library.

(** Workers 1 and 2 run the first two items to their end; the third is
    started and does not finish. *)
Definition two_of_three : list AsyncLibrary.wevent :=
  [ AsyncLibrary.WStart 0; AsyncLibrary.WStart 1; AsyncLibrary.WStart 2;
    AsyncLibrary.WFinish 0 1; AsyncLibrary.WFinish 1 2 ].

Definition all_three : list AsyncLibrary.wevent :=
  two_of_three ++ [AsyncLibrary.WFinish 2 3].

(** Two items that succeed, and a pool that runs both to their end. *)
Definition two_dispatched : world :=
  dispatch [log_message; log_message] library.

Definition both : list AsyncLibrary.wevent :=
  [ AsyncLibrary.WStart 0; AsyncLibrary.WStart 1;
    AsyncLibrary.WFinish 0 1; AsyncLibrary.WFinish 1 2 ].

(** One slot with two forks (tokens 0 and 1), none of them active yet, and
    a schedule in which thread 1 works on fork 0 while thread 2 works on
    fork 1 and thread 0 mutates the shared default and forks again. *)
Definition two_forks : ScopedValue.t :=
  ScopedValue.run [(0, ScopedValue.Fork); (0, ScopedValue.Fork)]
                  (ScopedValue.new (VInt 1) None).

Definition schedule : list (thread * ScopedValue.op) :=
  [ (1, ScopedValue.Activate 0); (2, ScopedValue.Activate 1);
    (2, ScopedValue.Mutate (VInt 9)); (0, ScopedValue.Mutate (VInt 5));
    (1, ScopedValue.Mutate (VInt 3)); (2, ScopedValue.Kill 1);
    (0, ScopedValue.Fork); (2, ScopedValue.Mutate (VInt 7)) ].

End Demo.

(** ** The logging guard *)

(** [only_run_on_robot_thread(func)]: the wrapper calls [func] when the
    name of the current thread is one of [librarylogger.LOGGING_THREADS]
    and returns [None] otherwise.  The tuple of names and
    [threading.currentThread().getName()] belong to Robot Framework and to
    Python; they are parameters here. *)
Definition only_run_on_robot_thread {A} (LOGGING_THREADS : list string)
    (getName : thread → string) (func : thread → A → M pyval)
    : thread → A → M pyval :=
  λ th args,
    if decide (getName th ∈ LOGGING_THREADS) then func th args else ret VNone.

(** The three methods of the XML writer that [AsyncLibrary.__init__]
    replaces. *)
Record xml_writer := XmlWriter {
  start : thread → list pyval → M pyval;
  end_ : thread → list pyval → M pyval;
  element : thread → list pyval → M pyval;
}.

(** The [if writer:] block of [AsyncLibrary.__init__]; a context without
    output, logger or writer yields [None] and nothing is replaced. *)
Definition guard_writer (LOGGING_THREADS : list string)
    (getName : thread → string) (writer : option xml_writer)
    : option xml_writer :=
  match writer with
  | Some wr =>
      Some (XmlWriter
              (only_run_on_robot_thread LOGGING_THREADS getName (start wr))
              (only_run_on_robot_thread LOGGING_THREADS getName (end_ wr))
              (only_run_on_robot_thread LOGGING_THREADS getName (element wr)))
  | None => None
  end.

(** ** More observations *)

(** An assignment of a keyword that goes through an installed redirect:
    the target object has a descriptor for the name and the backing
    attribute holds a live [ScopedValue]. *)
Definition scoped_write (w : world) (x : pyval * string * pyval) : bool :=
  match x.1.1 with
  | VObj i =>
      match objs w !! i with
      | Some ob =>
          bool_decide (x.1.2 ∈ descriptors ob) &&
          match attrs ob !! scoped_name x.1.2 with
          | Some (VScoped s) => bool_decide (is_Some (svs w !! s))
          | _ => false
          end
      | None => false
      end
  | _ => false
  end.

(** What a keyword ends with, as the outcome of a call. *)
Definition outcome (r : fresult) : completion pyval :=
  match r with
  | Result v => Ok v
  | Exception e => Raise e
  end.

(** The future [f] is the only one of the pool that carries its scope. *)
Definition own_scope (w : world) (f : nat) : bool :=
  forallb (λ g, bool_decide (g.1 = f) ||
                negb (bool_decide (Some (_scope g.2) = scope_of w f)))
          (map_to_list (pool w)).

(** [ScopedContext()] can handle the attribute path [a] of the context:
    its parent is reached through ordinary attributes and either the path
    is wrapped already (live [ScopedValue] behind it, last name readable),
    or the last name is an ordinary attribute of the parent that can be
    wrapped now. *)
Definition resolvable (w : world) (ctx : nat) (a : list string) : bool :=
  match plain_follow (objs w) (removelast a) (VObj ctx) with
  | Some (VObj i) =>
      match objs w !! i with
      | Some ob =>
          negb (bool_decide (scoped_name (List.last a "") ∈ descriptors ob)) &&
          match attrs ob !! scoped_name (List.last a "") with
          | Some (VScoped s) =>
              bool_decide (is_Some (svs w !! s)) &&
              (bool_decide (List.last a "" ∈ descriptors ob) ||
               bool_decide (is_Some (attrs ob !! List.last a "")))
          | _ =>
              negb (bool_decide (List.last a "" ∈ descriptors ob)) &&
              bool_decide (is_Some (attrs ob !! List.last a ""))
          end
      | None => false
      end
  | _ => false
  end.

(** The context of the library can be forked: every declared attribute
    path can be handled, and no class redirects anything else. *)
Definition dispatchable (w : world) : bool :=
  descriptors_ok w && forallb (resolvable w (context w)) ScopedContext._attributes.

(** [n] dispatches, each from its own thread with its own keyword. *)
Definition dispatches (ds : list (thread * keyword)) : list AsyncLibrary.action :=
  map (λ d, AsyncLibrary.ARun d.1 d.2) ds.

(** Every registered handle has been handed out: it is below the counter. *)
Definition handles_below (w : world) : bool :=
  forallb (λ kv : Z * nat, bool_decide (kv.1 < _last_thread_handle w)%Z)
          (map_to_list (_future w)).

(** * Isolation of forks (ScopedValue) *)

Module ScopedValueFacts.
Import ScopedValue.

(** The two runs compared by the isolation theorem: [sv1] has seen every
    step of the schedule, [sv2] only those of thread [b]. *)
Record sim (b : thread) (kb : token) (sv1 sv2 : t) : Prop := {
  sim_fork : forks sv1 !! kb = forks sv2 !! kb;
  sim_live : is_Some (forks sv1 !! kb);
  sim_active : active_by_thread sv1 !! b = Some kb ↔ active_by_thread sv2 !! b = Some kb;
  sim_excl : exclusive b kb sv1;
  sim_next1 : kb < next_token sv1;
  sim_next2 : kb < next_token sv2;
}.

Lemma view_foreign b kb sv th k :
  exclusive b kb sv → th ≠ b → view th sv = Some k → k ≠ kb.
Proof.
  unfold view, exclusive. intros Hex Hne Hv ->.
  destruct (active_by_thread sv !! th) as [k'|] eqn:E; [|done].
  case_decide; [|done]. simplify_eq. by apply Hne, Hex.
Qed.

Lemma view_own b kb sv :
  active_by_thread sv !! b = Some kb → is_Some (forks sv !! kb) →
  view b sv = Some kb.
Proof. unfold view. intros -> ?. by rewrite decide_True. Qed.

Lemma view_active th sv k : view th sv = Some k → active_by_thread sv !! th = Some k.
Proof.
  unfold view. destruct (active_by_thread sv !! th); [|done].
  case_decide; congruence.
Qed.

Lemma filter_active_lookup (m : gmap thread token) k th kb :
  k ≠ kb → filter (λ p, p.2 ≠ k) m !! th = Some kb ↔ m !! th = Some kb.
Proof.
  intros Hne. rewrite map_lookup_filter_Some. simpl. split; [tauto|].
  intros H. split; [done|]. congruence.
Qed.

(** A step of another thread changes only the first run. *)
Lemma sim_foreign b kb sv1 sv2 e :
  e.1 ≠ b → respects b kb e = true → sim b kb sv1 sv2 → sim b kb (step sv1 e) sv2.
Proof.
  destruct e as [th o]. simpl. intros Hne Hr [Hf Hl Ha Hex Hn1 Hn2].
  unfold step, respects in *. simpl in *. destruct o as [|k|k|v]; simpl in *.
  - split; simpl; try done.
    + rewrite lookup_insert_ne; [done|lia].
    + rewrite lookup_insert_ne; [done|lia].
    + lia.
  - assert (k ≠ kb) as Hk.
    { intros ->. rewrite bool_decide_eq_true_2 in Hr by done. simpl in Hr.
      by apply bool_decide_eq_true_1 in Hr. }
    split; simpl; try done.
    + by rewrite lookup_insert_ne.
    + intros th'; simpl. destruct (decide (th = th')) as [->|?].
      * rewrite lookup_insert_eq. congruence.
      * rewrite lookup_insert_ne by done. apply Hex.
  - assert (k ≠ kb) as Hk.
    { intros ->. by rewrite bool_decide_eq_true_2 in Hr. }
    split; simpl; try done.
    + by rewrite lookup_delete_ne.
    + by rewrite lookup_delete_ne.
    + by rewrite filter_active_lookup.
    + intros th'; simpl. rewrite filter_active_lookup by done. apply Hex.
  - unfold set. destruct (view th sv1) as [k|] eqn:Hv.
    + pose proof (view_foreign _ _ _ _ _ Hex Hne Hv) as Hk.
      split; simpl; try done; by rewrite lookup_insert_ne.
    + split; simpl; done.
Qed.

(** A step of [b] itself is taken by both runs. *)
Lemma sim_own b kb sv1 sv2 o :
  respects b kb (b, o) = true → sim b kb sv1 sv2 →
  sim b kb (step sv1 (b, o)) (step sv2 (b, o)).
Proof.
  intros Hr [Hf Hl Ha Hex Hn1 Hn2].
  unfold step, respects in *. simpl in *. destruct o as [|k|k|v]; simpl in *.
  - split; simpl; try done.
    + rewrite !lookup_insert_ne by lia. done.
    + rewrite lookup_insert_ne; [done|lia].
    + lia.
    + lia.
  - split; simpl; try done.
    + by rewrite !lookup_insert_eq.
    + intros th'; simpl. destruct (decide (b = th')) as [->|?]; [done|].
      rewrite lookup_insert_ne by done. apply Hex.
  - assert (k ≠ kb) as Hk.
    { intros ->. by rewrite bool_decide_eq_true_2 in Hr. }
    split; simpl; try done.
    + by rewrite !lookup_delete_ne.
    + by rewrite lookup_delete_ne.
    + by rewrite !filter_active_lookup.
    + intros th'; simpl. rewrite filter_active_lookup by done. apply Hex.
  - assert (view b sv1 = Some kb ↔ view b sv2 = Some kb) as Hvb.
    { split; intros Hv%view_active; apply view_own; try tauto.
      all: by rewrite <- Hf. }
    unfold set.
    destruct (view b sv1) as [k1|] eqn:Hv1; destruct (view b sv2) as [k2|] eqn:Hv2;
      split; simpl; try done.
    all: try (destruct (decide (k1 = kb)) as [->|]).
    all: try (destruct (decide (k2 = kb)) as [->|]).
    all: rewrite ?lookup_insert_eq, ?lookup_insert_ne by done; try done.
    all: exfalso; intuition congruence.
Qed.

Lemma sim_run b kb tr : ∀ sv1 sv2,
  forallb (respects b kb) tr = true → sim b kb sv1 sv2 →
  sim b kb (run tr sv1) (run (own b tr) sv2).
Proof.
  induction tr as [|[th o] tr IH]; intros sv1 sv2 Hr Hs; [done|].
  simpl in Hr. apply andb_true_iff in Hr as [Hr1 Hr2].
  unfold own. rewrite filter_cons. simpl. case_decide as Hth.
  - subst th. apply IH; [done|]. by apply sim_own.
  - apply IH; [done|]. by apply sim_foreign.
Qed.

End ScopedValueFacts.

(** * Which parts of the state an operation leaves alone *)

Section keeps.
Context {B : Type} (proj : world → B).

(** [keeps proj c]: running [c] does not change the [proj] part of the
    state, whatever the outcome. *)
Definition keeps {A} (c : M A) : Prop := ∀ w, proj (c w).2 = proj w.

Lemma keeps_ret {A} (a : A) : keeps (ret a).
Proof. done. Qed.

Lemma keeps_raise {A} e : keeps (raise (A:=A) e).
Proof. done. Qed.

Lemma keeps_gets {A} (f : world → A) : keeps (gets f).
Proof. done. Qed.

Lemma keeps_modify f : (∀ w, proj (f w) = proj w) → keeps (modify f).
Proof. intros H w. apply H. Qed.

Lemma keeps_bind {A C} (c : M A) (k : A → M C) :
  keeps c → (∀ a, keeps (k a)) → keeps (bind c k).
Proof.
  intros Hc Hk w. unfold bind. specialize (Hc w).
  destruct (c w) as [[a| |] w']; simpl in *; [|done..].
  by rewrite Hk.
Qed.

Lemma keeps_for_each {A} (l : list A) body :
  (∀ x, keeps (body x)) → keeps (for_each l body).
Proof.
  intros Hb. induction l as [|x l IH]; [done|].
  simpl. apply keeps_bind; [apply Hb|intros _]. apply IH.
Qed.

Lemma keeps_with {A} (enter : M A) exit body :
  keeps enter → (∀ e, keeps (exit e)) → keeps body → keeps (with_ enter exit body).
Proof.
  intros He Hx Hb w. unfold with_. specialize (He w).
  destruct (enter w) as [[a| |] w1]; simpl in *; [|done..].
  specialize (Hb w1). destruct (body w1) as [[r|e|] w2]; simpl in *.
  - rewrite <- He, <- Hb.
    apply (keeps_bind (exit None) (λ _, ret r)); [apply Hx|done].
  - rewrite <- He, <- Hb.
    apply (keeps_bind (exit (Some e)) (λ s, if truthy s then ret VNone else raise e));
      [apply Hx|].
    intros s. by destruct (truthy s).
  - congruence.
Qed.

Lemma keeps_getattr th o name : keeps (getattr th o name).
Proof.
  intros w. unfold getattr, descriptor_get. by repeat case_match.
Qed.

Lemma keeps_self s : keeps (ScopedContext.self_ s).
Proof. intros w. unfold ScopedContext.self_. by case_match. Qed.

Lemma keeps_follow th a : ∀ cur, keeps (ScopedContext.follow th a cur).
Proof.
  induction a as [|p a IH]; intros cur; [done|].
  simpl. apply keeps_bind; [apply keeps_getattr|intros v]. apply IH.
Qed.

Lemma keeps_slot th ctx a : keeps (ScopedContext.slot th ctx a).
Proof.
  unfold ScopedContext.slot.
  apply keeps_bind; [apply keeps_follow|intros cur]. apply keeps_getattr.
Qed.

Lemma keeps_walk th a : ∀ st, keeps (ScopedContext.walk th a st).
Proof.
  induction a as [|p a IH]; intros st; [done|].
  simpl. apply keeps_bind; [apply keeps_getattr|intros v]. apply IH.
Qed.

Lemma keeps_future_result f t : keeps (future_result f t).
Proof. intros w. unfold future_result. by repeat case_match. Qed.

Lemma keeps_wait fs t : keeps (wait fs t).
Proof. intros w. unfold wait. by repeat case_match. Qed.

(** Replacing the state of an existing [ScopedValue]. *)
Hypothesis proj_sv_update :
  ∀ s sv w, is_Some (svs w !! s) → proj (set_svs <[s := sv]> w) = proj w.

Lemma keeps_sv_fork scope : keeps (sv_fork scope).
Proof. intros w. unfold sv_fork. repeat case_match; simpl; eauto. Qed.

Lemma keeps_sv_activate th scope c : keeps (sv_activate th scope c).
Proof. intros w. unfold sv_activate. repeat case_match; simpl; eauto. Qed.

Lemma keeps_sv_kill scope c : keeps (sv_kill scope c).
Proof. intros w. unfold sv_kill. repeat case_match; simpl; eauto. Qed.

Hypothesis proj_objs : ∀ f w, proj (set_objs f w) = proj w.

Lemma keeps_setattr th o name v : keeps (setattr th o name v).
Proof.
  intros w. unfold setattr, descriptor_set. repeat case_match; simpl; eauto.
Qed.

Lemma keeps_delattr o name : keeps (delattr o name).
Proof. intros w. unfold delattr. repeat case_match; simpl; auto. Qed.

Lemma keeps_patch_class o p : keeps (patch_class o p).
Proof. intros w. unfold patch_class. repeat case_match; simpl; auto. Qed.

Hypothesis proj_svs : ∀ f w, proj (set_svs f w) = proj w.

Lemma keeps_new_scoped_value d seed : keeps (new_scoped_value d seed).
Proof. intros w. unfold new_scoped_value. simpl; auto. Qed.

Lemma keeps_run_keyword th kw : keeps (run_keyword th kw).
Proof.
  unfold run_keyword. apply keeps_bind.
  - apply keeps_for_each. intros x. apply keeps_setattr.
  - intros _. by destruct (kw_result kw).
Qed.

Lemma keeps_resolve th ctx a : keeps (ScopedContext.resolve th ctx a).
Proof.
  unfold ScopedContext.resolve. apply keeps_bind; [apply keeps_walk|].
  intros st. apply keeps_bind.
  - intros w. pose proof (keeps_getattr th st.1.1 (scoped_name st.1.2) w) as H.
    by repeat case_match.
  - intros scope. destruct (is_scoped_value scope); [done|].
    apply keeps_bind; [apply keeps_new_scoped_value|intros sv].
    apply keeps_bind; [apply keeps_setattr|intros _].
    apply keeps_bind; [apply keeps_delattr|intros _].
    apply keeps_bind; [apply keeps_patch_class|intros _]. apply keeps_ret.
Qed.

Lemma keeps_fork_all th ctx paths : keeps (ScopedContext.fork_all th ctx paths).
Proof.
  induction paths as [|a rest IH]; [done|].
  simpl. apply keeps_bind; [apply keeps_resolve|intros scope].
  apply keeps_bind; [apply keeps_sv_fork|intros c].
  apply keeps_bind; [apply IH|intros cs]. apply keeps_ret.
Qed.

Hypothesis proj_scopes : ∀ f w, proj (set_scopes f w) = proj w.

Lemma keeps_init th : keeps (ScopedContext.__init__ th).
Proof.
  unfold ScopedContext.__init__.
  apply keeps_bind; [apply keeps_gets|intros ctx].
  apply keeps_bind; [apply keeps_fork_all|intros forks].
  intros w. simpl. auto.
Qed.

Hypothesis proj_calls : ∀ c w, proj (log_call c w) = proj w.

Lemma keeps_activate th s : keeps (ScopedContext.activate th s).
Proof.
  unfold ScopedContext.activate.
  apply keeps_bind; [by apply keeps_modify|intros _].
  apply keeps_bind; [apply keeps_self|intros sc].
  apply keeps_for_each. intros x.
  apply keeps_bind; [apply keeps_slot|intros scope]. apply keeps_sv_activate.
Qed.

Lemma keeps_kill th s : keeps (ScopedContext.kill th s).
Proof.
  unfold ScopedContext.kill.
  apply keeps_bind; [by apply keeps_modify|intros _].
  apply keeps_bind; [apply keeps_self|intros sc].
  apply keeps_bind; [by apply keeps_modify|intros _].
  apply keeps_for_each. intros x. apply keeps_bind.
  - destruct x.2; [|done].
    apply keeps_bind; [apply keeps_slot|intros scope]. apply keeps_sv_kill.
  - intros _. by apply keeps_modify.
Qed.

Lemma keeps_run th s fn : keeps fn → keeps (AsyncLibrary._run th s fn).
Proof.
  intros Hfn. apply keeps_with; [|intros e|done].
  - apply keeps_bind; [apply keeps_activate|done].
  - apply keeps_bind; [apply keeps_kill|done].
Qed.

Hypothesis proj_pool : ∀ f w, proj (set_pool f w) = proj w.

Lemma keeps_submit s kw : keeps (submit s kw).
Proof. intros w. unfold submit. simpl. auto. Qed.

Lemma keeps_cancel f : keeps (cancel f).
Proof. intros w. unfold cancel, set_state. repeat case_match; simpl; auto. Qed.

Lemma worker_step_keeps w e : proj (AsyncLibrary.worker_step w e) = proj w.
Proof.
  destruct e as [f|f th]; simpl.
  - unfold set_state. repeat case_match; simpl; auto.
  - destruct (pool w !! f) as [fut|]; [|done].
    destruct (f_state fut); try done.
    pose proof (keeps_run th (_scope fut) _ (keeps_run_keyword th (f_fn fut)) w) as H.
    destruct (AsyncLibrary._run _ _ _ w) as [[v|e|] w']; simpl in *;
      unfold set_state; rewrite ?proj_pool; done.
Qed.

Lemma run_workers_keeps evs : ∀ w, proj (AsyncLibrary.run_workers evs w) = proj w.
Proof.
  induction evs as [|e evs IH]; intros w; [done|].
  unfold AsyncLibrary.run_workers in *. simpl. by rewrite IH, worker_step_keeps.
Qed.

End keeps.

(** * The handle registry *)

Section registry.
Import AsyncLibrary.

Local Ltac frame := first [done | by intros].

Lemma for_each_ok {A} (l : list A) (body : A → M unit) w :
  (∀ x, x ∈ l → body x w = (Ok tt, w)) → for_each l body w = (Ok tt, w).
Proof.
  induction l as [|x l IH]; intros H; [done|].
  simpl. unfold bind. rewrite H by apply list_elem_of_here.
  apply IH. intros y Hy. apply H. by apply list_elem_of_further.
Qed.

(** ** Handles *)

Lemma register_spec f w :
  register f w =
    (Ok (_last_thread_handle w),
     set_future <[_last_thread_handle w := f]>
       (set_last_thread_handle (λ n, n + 1)%Z w)).
Proof. done. Qed.

Lemma async_run_counter th kw w :
  match (async_run th kw w).1 with
  | Ok h => h = _last_thread_handle w ∧
            _last_thread_handle (async_run th kw w).2 = (_last_thread_handle w + 1)%Z
  | _ => _last_thread_handle (async_run th kw w).2 = _last_thread_handle w
  end.
Proof.
  unfold async_run, bind.
  assert (keeps _last_thread_handle (ScopedContext.__init__ th)) as Hi
    by (apply keeps_init; frame).
  specialize (Hi w).
  destruct (ScopedContext.__init__ th w) as [[s|e|] w1]; simpl in *; try done.
  by rewrite Hi.
Qed.

Lemma pop_counter h : keeps _last_thread_handle (pop h).
Proof. intros w. unfold pop. by case_match. Qed.

Lemma async_get_counter h t evs : keeps _last_thread_handle (async_get h t evs).
Proof.
  unfold async_get. apply keeps_bind; [apply pop_counter|intros f].
  apply keeps_bind; [|intros _; apply keeps_future_result].
  apply keeps_modify. intros w. apply run_workers_keeps; frame.
Qed.

Lemma async_get_all_counter o t evs : keeps _last_thread_handle (async_get_all o t evs).
Proof.
  unfold async_get_all. apply keeps_bind; [apply keeps_gets|intros d].
  apply keeps_bind; [by apply keeps_modify|intros _].
  apply keeps_bind; [by destruct d|intros vs].
  apply keeps_bind; [|intros _].
  { apply keeps_modify. intros w. apply run_workers_keeps; frame. }
  apply keeps_bind; [apply keeps_wait|intros r].
  apply keeps_bind; [|intros _].
  { case_decide; [done|]. apply keeps_bind; [done|intros its].
    apply keeps_bind; [by apply keeps_modify|done]. }
  apply keeps_bind; [|done].
  apply keeps_for_each. intros f.
  apply keeps_bind; [apply keeps_future_result|done].
Qed.

Lemma drain_counter th fs : ∀ acc, keeps _last_thread_handle (drain th fs acc).
Proof.
  induction fs as [|f fs IH]; intros acc; [done|].
  simpl. apply keeps_bind; [apply keeps_cancel; frame|intros [|]]; [|apply IH].
  apply keeps_bind; [intros w; by case_match|intros s].
  apply keeps_bind; [apply keeps_kill; frame|intros _]. apply IH.
Qed.

Lemma wait_all_counter th evs : keeps _last_thread_handle (_wait_all th evs).
Proof.
  unfold _wait_all, drain_registry.
  apply keeps_bind; [|intros fs].
  { apply keeps_bind; [apply keeps_gets|intros d].
    apply keeps_bind; [by destruct d|intros vs].
    apply keeps_bind; [apply drain_counter|intros futures].
    apply keeps_bind; [by apply keeps_modify|done]. }
  apply keeps_bind; [|intros _].
  { apply keeps_modify. intros w. apply run_workers_keeps; frame. }
  apply keeps_bind; [apply keeps_wait|done].
Qed.

Lemma perform_handles acts : ∀ w,
  (perform acts w).1 = seqZ (_last_thread_handle w) (Z.of_nat (length (perform acts w).1)) ∧
  _last_thread_handle (perform acts w).2
    = (_last_thread_handle w + Z.of_nat (length (perform acts w).1))%Z.
Proof.
  induction acts as [|a acts IH]; intros w.
  { simpl. split; [done|lia]. }
  destruct a as [th kw|h t evs|o t evs|th evs|evs]; simpl.
  - pose proof (async_run_counter th kw w) as Hc.
    destruct (async_run th kw w) as [[h|e|] w1]; simpl in *.
    + destruct Hc as [-> Hc]. specialize (IH w1).
      destruct (perform acts w1) as [hs w2]; simpl in *.
      destruct IH as [IH1 IH2]. rewrite Hc in IH1, IH2. split; [|lia].
      rewrite Nat2Z.inj_succ, seqZ_cons by lia. f_equal.
      by rewrite Z.pred_succ, <- Z.add_1_r.
    + rewrite <- Hc. apply IH.
    + rewrite <- Hc. apply IH.
  - rewrite <- (async_get_counter h t evs w). apply IH.
  - rewrite <- (async_get_all_counter o t evs w). apply IH.
  - rewrite <- (wait_all_counter th evs w). apply IH.
  - rewrite <- (run_workers_keeps _last_thread_handle) with (evs := evs) (w := w)
      by frame. apply IH.
Qed.

Lemma seqZ_sorted n : ∀ m, StronglySorted Z.lt (seqZ m (Z.of_nat n)).
Proof.
  induction n as [|n IH]; intros m; [constructor|].
  rewrite Nat2Z.inj_succ, seqZ_cons, Z.pred_succ by lia.
  constructor; [apply IH|].
  apply Forall_forall. intros x Hx. apply elem_of_seqZ in Hx. lia.
Qed.

End registry.

(** * Retrieval *)

Section retrieval.
Import AsyncLibrary.

Local Ltac frame := first [done | by intros].

Lemma run_workers_registry evs w : _future (run_workers evs w) = _future w.
Proof. apply run_workers_keeps; frame. Qed.

Lemma async_get_registry handle timeout evs w :
  _future (async_get handle timeout evs w).2 = delete handle (_future w).
Proof.
  unfold async_get, bind, pop.
  destruct (_future w !! handle) as [f|] eqn:E; simpl.
  - pose proof (keeps_future_result _future f timeout
                  (run_workers evs (set_future (delete handle) w))) as H.
    destruct (future_result f timeout _) as [[v|e|] w']; simpl in *;
      by rewrite H, run_workers_registry.
  - by rewrite delete_id.
Qed.

Lemma async_get_unknown handle timeout evs w :
  _future w !! handle = None →
  async_get handle timeout evs w = (Raise (unknown_handle handle), w).
Proof. intros H. unfold async_get, bind, pop. by rewrite H. Qed.

(** C6. Retrieval by handle is single-use.  [async_get] removes the entry
    of the handle from the registry; if the handle was not registered the
    call fails, without touching the state, with the error
    "entry with handle <handle> does not exist"; and whatever the first
    call did, every later [async_get] on the same handle fails with that
    error. *)
Theorem get_is_single_use (handle : Z) (timeout : option nat)
    (evs : list wevent) (w : world) :
  let r := async_get handle timeout evs w in
  _future r.2 = delete handle (_future w) ∧
  (is_Some (_future w !! handle) ∨ r = (Raise (unknown_handle handle), w)) ∧
  (∀ timeout' evs',
     async_get handle timeout' evs' r.2 = (Raise (unknown_handle handle), r.2)) ∧
  unknown_handle handle
    = ValueError ("entry with handle " +:+ pretty handle +:+ " does not exist").
Proof.
  intros r. split; [apply async_get_registry|]. split.
  - destruct (_future w !! handle) eqn:E; [by left; eexists|right].
    by apply async_get_unknown.
  - split; [|done]. intros t' evs'. apply async_get_unknown.
    unfold r. rewrite async_get_registry. apply lookup_delete_eq.
Qed.

(** C8. A timed-out [async_get] discards the handle: if the future of a
    registered handle is still pending or running when the timeout
    expires, the call fails with [TimeoutError], the entry that was popped
    before waiting is not put back, and the handle is unknown to every
    later [async_get]. *)
Theorem get_timeout_discards_handle (handle : Z) (f : nat) (T : nat)
    (evs : list wevent) (w : world) :
  _future w !! handle = Some f →
  unfinished (run_workers evs (pop handle w).2) f = true →
  let r := async_get handle (Some T) evs w in
  r.1 = Raise (TimeoutError "") ∧
  _future r.2 = delete handle (_future w) ∧
  _future r.2 !! handle = None ∧
  (∀ timeout' evs',
     (async_get handle timeout' evs' r.2).1 = Raise (unknown_handle handle)).
Proof.
  intros Hh Hu r.
  assert (_future r.2 = delete handle (_future w)) as Hreg
    by apply async_get_registry.
  split.
  - unfold r, async_get, bind. unfold pop in *. rewrite Hh in *. simpl in *.
    unfold unfinished in Hu. unfold future_result.
    destruct (state_of f _) as [[]|]; simpl in *; done.
  - split; [done|]. rewrite Hreg. split; [apply lookup_delete_eq|].
    intros t' evs'. rewrite async_get_unknown; [done|].
    rewrite Hreg. apply lookup_delete_eq.
Qed.

(** ** Bulk retrieval *)

Lemma async_get_all_eq set_order timeout evs w :
  async_get_all set_order timeout evs w =
    (let! result := wait (registered w) timeout in
     (if decide (result.2 = ∅) then ret tt
      else
        let! its := items (PyList (registered w)) in
        modify (set_future (λ m,
          list_to_map (filter (λ kv, kv.2 ∈ result.2) its) ∪ m)) ;;;
        raise (TimeoutError (pretty (size result.2) +:+ " (of "
                 +:+ pretty (len (PyList (registered w)))
                 +:+ ") futures unfinished"))) ;;;
     for_each (set_order (elements result.1))
              (λ f, future_result f None ;;; ret tt) ;;;
     ret VNone) (at_wait evs w).
Proof. done. Qed.

Lemma filter_all (f : nat → bool) fs :
  forallb f fs = true → filter (λ x, f x = true) fs = fs.
Proof.
  induction fs as [|x fs IH]; [done|]. simpl.
  intros [Hx Hfs]%andb_true_iff. rewrite filter_cons, decide_True by done.
  by rewrite IH.
Qed.

Lemma forallb_false (f : nat → bool) fs :
  forallb f fs = false → ∃ x, x ∈ fs ∧ f x = false.
Proof.
  induction fs as [|x fs IH]; [done|]. simpl.
  destruct (f x) eqn:E; simpl.
  - intros (y & Hy & Hf)%IH. exists y. split; [by apply list_elem_of_further|done].
  - intros _. exists x. split; [apply list_elem_of_here|done].
Qed.

Lemma wait_all_done fs timeout w :
  forallb (is_done w) fs = true →
  wait fs timeout w = (Ok (list_to_set fs, ∅), w).
Proof.
  intros H. unfold wait.
  rewrite (filter_all (is_done w)) by done.
  rewrite difference_diag_L. by rewrite decide_True.
Qed.

Lemma wait_some_not_done fs timeout w :
  forallb (is_done w) fs = false →
  wait fs timeout w =
    match timeout with
    | Some _ => (Ok (list_to_set (filter (λ f, is_done w f = true) fs),
                     list_to_set fs ∖ list_to_set (filter (λ f, is_done w f = true) fs)), w)
    | None => (Blocked, w)
    end ∧
  list_to_set fs ∖ list_to_set (filter (λ f, is_done w f = true) fs) ≠ (∅ : gset nat).
Proof.
  intros H. unfold wait.
  assert (list_to_set fs ∖ list_to_set (filter (λ f, is_done w f = true) fs)
          ≠ (∅ : gset nat)) as Hne.
  { apply forallb_false in H as (f & Hf & Hd).
    intros He. apply (not_elem_of_empty (C:=gset nat) f).
    rewrite <- He. apply elem_of_difference.
    split; [by apply elem_of_list_to_set|].
    rewrite elem_of_list_to_set, list_elem_of_filter. intros [Hd' _]. congruence. }
  split; [|done]. rewrite decide_False by done. by destruct timeout.
Qed.

Lemma completed_done w f : completed w f = true → is_done w f = true.
Proof. unfold completed, is_done. by repeat case_match. Qed.

Lemma collect_results w fs :
  forallb (completed w) fs = true →
  for_each fs (λ f, future_result f None ;;; ret tt) w =
    (match first_failure w fs with
     | Some e => Raise e
     | None => Ok tt
     end, w).
Proof.
  induction fs as [|f fs IH]; intros H; [done|].
  simpl in H. apply andb_true_iff in H as [Hf Hfs].
  simpl. unfold first_failure, bind in *. simpl.
  unfold completed in Hf. unfold future_result, failure.
  destruct (state_of f w) as [[| | | |[v|e]]|]; try done; simpl.
  by apply IH.
Qed.

Lemma first_failure_Some w fs e :
  first_failure w fs = Some e → ∃ f, f ∈ fs ∧ failure w f = Some e.
Proof.
  unfold first_failure. induction fs as [|f fs IH]; [done|]. simpl.
  destruct (failure w f) as [e'|] eqn:E; simpl.
  - intros [= ->]. exists f. split; [apply list_elem_of_here|done].
  - intros (f' & Hf' & He)%IH. exists f'. split; [by apply list_elem_of_further|done].
Qed.

Lemma first_failure_None w fs :
  first_failure w fs = None ↔ ∀ f, f ∈ fs → failure w f = None.
Proof.
  unfold first_failure. induction fs as [|f fs IH]; simpl.
  - split; [|done]. intros _ f Hf. by apply elem_of_nil in Hf.
  - destruct (failure w f) as [e'|] eqn:E; simpl.
    + split; [done|]. intros H. specialize (H f (list_elem_of_here _ _)). congruence.
    + rewrite IH. split.
      * intros H f' [->|Hf']%elem_of_cons; auto.
      * intros H f' Hf'. apply H. by apply list_elem_of_further.
Qed.

Lemma elem_of_visit set_order w f :
  (∀ l, set_order l ≡ₚ l) → f ∈ visit set_order w ↔ f ∈ registered w.
Proof.
  intros Hp. unfold visit. rewrite Hp, elem_of_elements. apply elem_of_list_to_set.
Qed.

Lemma forallb_visit set_order w (P : nat → bool) :
  (∀ l, set_order l ≡ₚ l) →
  forallb P (registered w) = true → forallb P (visit set_order w) = true.
Proof.
  intros Hp H. apply forallb_forall. intros f Hf%list_elem_of_In.
  rewrite forallb_forall in H. apply H, list_elem_of_In.
  by apply (elem_of_visit set_order).
Qed.

Lemma forallb_impl (P Q : nat → bool) fs :
  (∀ f, P f = true → Q f = true) → forallb P fs = true → forallb Q fs = true.
Proof. rewrite !forallb_forall. auto. Qed.

(** All items complete in time: the outcome is decided by the first
    failure in visiting order. *)
Lemma async_get_all_complete set_order timeout evs w :
  (∀ l, set_order l ≡ₚ l) →
  forallb (completed (at_wait evs w)) (registered w) = true →
  async_get_all set_order timeout evs w =
    (match first_failure (at_wait evs w) (visit set_order w) with
     | Some e => Raise e
     | None => Ok VNone
     end, at_wait evs w).
Proof.
  intros Hp Hc. rewrite async_get_all_eq. unfold bind at 1.
  rewrite wait_all_done by (eapply forallb_impl; [apply completed_done|done]).
  simpl. rewrite decide_True by done.
  unfold bind at 1. unfold ret at 1. unfold bind at 1.
  fold (visit set_order w).
  rewrite collect_results by by apply forallb_visit.
  by destruct (first_failure _ _).
Qed.

(** Some item is not done when [wait] returns: no result is reported. *)
Lemma async_get_all_incomplete set_order timeout evs w :
  forallb (is_done (at_wait evs w)) (registered w) = false →
  async_get_all set_order timeout evs w =
    (match timeout with
     | Some _ => Raise (AttributeError "'list' object has no attribute 'items'")
     | None => Blocked
     end, at_wait evs w).
Proof.
  intros Hn. rewrite async_get_all_eq. unfold bind at 1.
  destruct (wait_some_not_done _ timeout _ Hn) as [-> Hne].
  destruct timeout as [T|]; [|done]. simpl. by rewrite decide_False.
Qed.

Lemma at_wait_registry evs w : _future (at_wait evs w) = ∅.
Proof. unfold at_wait. by rewrite run_workers_registry. Qed.

(** C7. [async_get_all] waits for the full set and then propagates the
    first failure.  When every dispatched item has completed by the time
    its wait returns, the call visits the whole set of completed futures
    and propagates the first failure it meets, which is the error that one
    of the registered work items ended with; it returns normally exactly
    when no item failed.  No completion is reported while some future is
    still not done: a normal return implies that every registered future
    was done, and whenever one is not done at the wait the call reports
    neither a result nor the failure of any item that did complete (with
    no timeout it is still waiting, with a timeout it fails before it
    looks at any result). *)
Theorem get_all_propagates_first_failure (set_order : list nat → list nat)
    (timeout : option nat) (evs : list wevent) (w : world) :
  (∀ l, set_order l ≡ₚ l) →
  forallb (completed (at_wait evs w)) (registered w) = true →
  let r := async_get_all set_order timeout evs w in
  r.1 = match first_failure (at_wait evs w) (visit set_order w) with
        | Some e => Raise e
        | None => Ok VNone
        end ∧
  (∀ e, r.1 = Raise e →
        ∃ f, f ∈ registered w ∧ failure (at_wait evs w) f = Some e) ∧
  (r.1 = Ok VNone ↔ ∀ f, f ∈ registered w → failure (at_wait evs w) f = None) ∧
  (∀ timeout0 evs0 w0,
     (async_get_all set_order timeout0 evs0 w0).1 = Ok VNone →
     forallb (is_done (at_wait evs0 w0)) (registered w0) = true) ∧
  (∀ timeout0 evs0 w0,
     forallb (is_done (at_wait evs0 w0)) (registered w0) = false →
     (async_get_all set_order timeout0 evs0 w0).1
       = match timeout0 with
         | Some _ => Raise (AttributeError "'list' object has no attribute 'items'")
         | None => Blocked
         end) ∧
  (∀ evs0 w0,
     forallb (is_done (at_wait evs0 w0)) (registered w0) = false →
     async_get_all set_order None evs0 w0 = (Blocked, at_wait evs0 w0)).
Proof.
  intros Hp Hc r. unfold r. rewrite async_get_all_complete by done. simpl.
  split; [done|]. split; [|split; [|split; [|split]]].
  - intros e He. destruct (first_failure _ _) as [e'|] eqn:E; [|done].
    injection He as ->. apply first_failure_Some in E as (f & Hf & E).
    exists f. split; [|done]. by apply (elem_of_visit set_order).
  - destruct (first_failure _ _) as [e'|] eqn:E.
    + split; [done|]. intros H. apply first_failure_Some in E as (f & Hf & E).
      rewrite H in E; [done|]. by apply (elem_of_visit set_order).
    + split; [|done]. intros _ f Hf. rewrite first_failure_None in E.
      apply E. by apply elem_of_visit.
  - intros t0 evs0 w0 H0.
    destruct (forallb (is_done (at_wait evs0 w0)) (registered w0)) eqn:E; [done|].
    rewrite async_get_all_incomplete in H0 by done. by destruct t0.
  - intros t0 evs0 w0 H0. by rewrite async_get_all_incomplete.
  - intros evs0 w0 H0. by rewrite async_get_all_incomplete.
Qed.

(** C10. When every outstanding future completes in time and none of
    them failed, [async_get_all] returns [None]: the values that the work
    items returned are not part of the result, and since the registry is
    left empty no later [async_get] can deliver them either. *)
Theorem get_all_returns_none (set_order : list nat → list nat)
    (timeout : option nat) (evs : list wevent) (w : world) :
  (∀ l, set_order l ≡ₚ l) →
  forallb (succeeded (at_wait evs w)) (registered w) = true →
  let r := async_get_all set_order timeout evs w in
  r.1 = Ok VNone ∧
  _future r.2 = ∅ ∧
  (∀ handle timeout' evs',
     (async_get handle timeout' evs' r.2).1 = Raise (unknown_handle handle)).
Proof.
  intros Hp Hs r.
  assert (r = (Ok VNone, at_wait evs w)) as ->.
  { unfold r. rewrite async_get_all_complete; [|done|].
    - assert (first_failure (at_wait evs w) (visit set_order w) = None) as ->; [|done].
      apply first_failure_None. intros f Hf%(elem_of_visit set_order); [|done].
      rewrite forallb_forall in Hs. apply list_elem_of_In, Hs in Hf.
      unfold succeeded, failure in *. by repeat case_match.
    - eapply forallb_impl; [|done]. intros f. unfold succeeded, completed.
      by repeat case_match. }
  simpl. split; [done|]. split; [apply at_wait_registry|].
  intros h t' evs'. rewrite async_get_unknown; [done|].
  by rewrite at_wait_registry.
Qed.

(** C2. Three items are dispatched; two complete in time and the third
    is still running when the timeout of [async_get_all] expires.  The
    call then fails on [futures.items()] with [AttributeError] (not with
    a [TimeoutError] that counts 1 of 3), and the registry stays empty:
    the unfinished entry is not restored, so that once the third item has
    finished a later [async_get_all] has nothing to retrieve and
    [async_get] does not know its handle. *)
Theorem get_all_timeout_drops_unfinished :
  let w := Demo.three_dispatched in
  let r := async_get_all id (Some 1) Demo.two_of_three w in
  _future w = {[ 0%Z := 0; 1%Z := 1; 2%Z := 2 ]} ∧
  filter (λ f, unfinished r.2 f = true) (registered w) = [2] ∧
  r.1 = Raise (AttributeError "'list' object has no attribute 'items'") ∧
  r.1 ≠ Raise (TimeoutError "1 (of 3) futures unfinished") ∧
  _future r.2 = ∅ ∧
  async_get_all id None [WFinish 2 3] r.2
    = (Ok VNone, run_workers [WFinish 2 3] r.2) ∧
  (async_get 2 None [WFinish 2 3] r.2).1 = Raise (unknown_handle 2).
Proof. vm_compute. repeat split; done. Qed.

End retrieval.

(** * Activation and release of a scope *)

Section scope.
Import AsyncLibrary.

Local Ltac frame := first [done | by intros].
Local Opaque ScopedContext._attributes.

Lemma plain_follow_app os a b cur :
  plain_follow os (a ++ b) cur
    = match plain_follow os a cur with
      | Some v => plain_follow os b v
      | None => None
      end.
Proof.
  revert cur. induction a as [|p a IH]; intros cur; [done|].
  simpl. destruct cur as [| | | |i|]; try done.
  destruct (os !! i) as [ob|]; [|done]. case_decide; [done|].
  destruct (attrs ob !! p) as [v|]; [|done]. apply IH.
Qed.

Lemma getattr_plain th w cur name v :
  plain_follow (objs w) [name] cur = Some v →
  getattr th cur name w = (Ok v, w).
Proof.
  simpl. unfold getattr. repeat case_match; try done. by intros [= ->].
Qed.

Lemma follow_plain th w a : ∀ cur v,
  plain_follow (objs w) a cur = Some v →
  ScopedContext.follow th a cur w = (Ok v, w).
Proof.
  induction a as [|p a IH]; intros cur v H.
  { simpl in *. by injection H as ->. }
  change (p :: a) with ([p] ++ a) in H. rewrite plain_follow_app in H.
  destruct (plain_follow (objs w) [p] cur) as [v'|] eqn:E; [|done].
  simpl. unfold bind. rewrite (getattr_plain _ _ _ _ _ E). by apply IH.
Qed.

Lemma slot_installed th w ctx a s :
  installed_slot w ctx a = Some s →
  ScopedContext.slot th ctx a w = (Ok (VScoped s), w) ∧ is_Some (svs w !! s).
Proof.
  unfold installed_slot, slot_path. rewrite plain_follow_app.
  destruct (plain_follow (objs w) (removelast a) (VObj ctx)) as [cur|] eqn:E; [|done].
  destruct (plain_follow (objs w) [_] cur) as [[| | | | |s']|] eqn:E2; try done.
  case_decide as Hs; [|done]. intros [= ->]. split; [|done].
  unfold ScopedContext.slot, bind. rewrite (follow_plain _ _ _ _ _ E).
  by apply getattr_plain.
Qed.

Lemma slots_sv_update s sv w :
  is_Some (svs w !! s) → slots (set_svs <[s := sv]> w) = slots w.
Proof.
  intros Hs. unfold slots. simpl. f_equal. rewrite dom_insert_L.
  apply subseteq_union_1_L, singleton_subseteq_l. by apply elem_of_dom.
Qed.

Lemma installed_slot_slots w w' ctx a :
  slots w' = slots w → installed_slot w' ctx a = installed_slot w ctx a.
Proof.
  unfold slots, installed_slot. intros [= -> Hd].
  destruct (plain_follow _ _ _) as [[| | | | |s]|]; try done.
  apply decide_ext. by rewrite <- !elem_of_dom, Hd.
Qed.

Lemma context_installed_slots w w' ctx :
  slots w' = slots w → context_installed w' ctx = context_installed w ctx.
Proof.
  intros H. unfold context_installed.
  induction ScopedContext._attributes as [|a l IH]; [done|].
  simpl. by rewrite IH, (installed_slot_slots w w').
Qed.

Lemma keeps_slots_activate th s : keeps slots (ScopedContext.activate th s).
Proof. apply keeps_activate; [apply slots_sv_update|done]. Qed.

Lemma keeps_slots_kill th s : keeps slots (ScopedContext.kill th s).
Proof. apply keeps_kill; [apply slots_sv_update|done..]. Qed.

Lemma context_installed_elem w ctx a :
  context_installed w ctx = true → a ∈ ScopedContext._attributes →
  is_Some (installed_slot w ctx a).
Proof.
  unfold context_installed. rewrite forallb_forall. intros H Ha.
  apply list_elem_of_In, H in Ha. by apply bool_decide_eq_true_1 in Ha.
Qed.

Lemma elem_of_zip_l {A C} (l : list A) (k : list C) x :
  x ∈ zip l k → x.1 ∈ l.
Proof.
  revert k. induction l as [|a l IH]; intros [|c k] Hx; simpl in *;
    try by apply elem_of_nil in Hx.
  apply elem_of_cons in Hx as [->|Hx]; [apply list_elem_of_here|].
  apply list_elem_of_further. by eapply IH.
Qed.

Lemma activate_loop th ctx (l : list (list string * option token)) : ∀ w,
  (∀ ac, ac ∈ l → is_Some (installed_slot w ctx ac.1)) →
  (for_each l (λ ac,
     let! scope := ScopedContext.slot th ctx ac.1 in
     sv_activate th scope ac.2) w).1 = Ok tt.
Proof.
  induction l as [|ac l IH]; intros w H; [done|].
  destruct (H ac (list_elem_of_here _ _)) as [sid Hs].
  apply (slot_installed th) in Hs as [Hslot [sv Hsv]].
  simpl. unfold bind at 1. unfold bind at 1. rewrite Hslot.
  unfold sv_activate. rewrite Hsv. apply IH.
  intros ac' Hac'. rewrite (installed_slot_slots w).
  - apply H. by apply list_elem_of_further.
  - by apply slots_sv_update.
Qed.

(** Activation succeeds on a scope whose context has its slots. *)
Lemma activate_ok th s w :
  scope_ok w s = true → (ScopedContext.activate th s w).1 = Ok tt.
Proof.
  unfold scope_ok. destruct (scopes w !! s) as [sc|] eqn:E; [|done]. intros Hc.
  unfold ScopedContext.activate, bind, modify, ScopedContext.self_. simpl.
  rewrite E. apply activate_loop. intros ac Hac%elem_of_zip_l.
  rewrite (installed_slot_slots w) by done. by apply context_installed_elem.
Qed.

Local Abbreviation kill_body th s ctx :=
  (λ ac : list string * option token,
     match ac.2 with
     | Some c =>
         let! scope := ScopedContext.slot th ctx ac.1 in
         sv_kill scope c
     | None => ret tt
     end ;;;
     ScopedContext.append_fork s None).

Lemma kill_step th s ctx ac acc w :
  scopes w !! s = Some (ScopedCtx ctx acc) →
  is_Some (installed_slot w ctx ac.1) →
  ∃ w', kill_body th s ctx ac w = (Ok tt, w') ∧
        scopes w' !! s = Some (ScopedCtx ctx (acc ++ [None])) ∧
        slots w' = slots w ∧
        (∀ s', s' ≠ s → scopes w' !! s' = scopes w !! s').
Proof.
  intros Hs [sid Hsid].
  apply (slot_installed th) in Hsid as [Hslot [sv Hsv]].
  unfold bind at 1. destruct ac.2 as [c|].
  - unfold bind at 1. rewrite Hslot. unfold sv_kill. rewrite Hsv.
    unfold ScopedContext.append_fork, modify. simpl.
    eexists. split; [done|]. simpl. rewrite Hs. split; [apply lookup_insert_eq|].
    split; [|intros s' Hs'; by apply lookup_insert_ne].
    unfold slots. simpl. f_equal. rewrite dom_insert_L.
    apply subseteq_union_1_L, singleton_subseteq_l. by apply elem_of_dom.
  - unfold ret at 1. unfold ScopedContext.append_fork, modify. simpl.
    eexists. split; [done|]. simpl. rewrite Hs. split; [apply lookup_insert_eq|].
    split; [done|intros s' Hs'; by apply lookup_insert_ne].
Qed.

Lemma kill_loop th s ctx (l : list (list string * option token)) : ∀ acc w,
  scopes w !! s = Some (ScopedCtx ctx acc) →
  (∀ ac, ac ∈ l → is_Some (installed_slot w ctx ac.1)) →
  ∃ w', for_each l (kill_body th s ctx) w = (Ok tt, w') ∧
        scopes w' !! s = Some (ScopedCtx ctx (acc ++ replicate (length l) None)) ∧
        (∀ s', s' ≠ s → scopes w' !! s' = scopes w !! s').
Proof.
  induction l as [|ac l IH]; intros acc w Hs H.
  { exists w. by rewrite app_nil_r. }
  destruct (kill_step th s ctx ac acc w Hs (H ac (list_elem_of_here _ _)))
    as (w1 & Hstep & Hs1 & Hsl & Ho1).
  destruct (IH (acc ++ [None]) w1 Hs1) as (w' & Hw' & Hs' & Ho').
  { intros ac' Hac'. rewrite (installed_slot_slots w) by done.
    apply H. by apply list_elem_of_further. }
  exists w'. split; [|split].
  - change (for_each (ac :: l) (kill_body th s ctx) w)
      with (bind (kill_body th s ctx ac) (λ _, for_each l (kill_body th s ctx)) w).
    unfold bind at 1. by rewrite Hstep.
  - rewrite Hs'. by rewrite <- app_assoc.
  - intros s' Hne. by rewrite Ho', Ho1.
Qed.

(** [kill] succeeds on such a scope and leaves it without forks. *)
Lemma kill_ok th s w sc :
  scopes w !! s = Some sc →
  context_installed w (_context sc) = true →
  (ScopedContext.kill th s w).1 = Ok tt ∧
  scopes (ScopedContext.kill th s w).2 !! s
    = Some (ScopedCtx (_context sc)
              (replicate (length (zip ScopedContext._attributes (_forks sc))) None)) ∧
  (∀ s', s' ≠ s → scopes (ScopedContext.kill th s w).2 !! s' = scopes w !! s').
Proof.
  intros E Hc.
  unfold ScopedContext.kill, bind, modify, ScopedContext.self_. simpl.
  rewrite E.
  edestruct (kill_loop th s (_context sc) (zip ScopedContext._attributes (_forks sc)) [])
    as (w' & -> & Hs' & Ho').
  - simpl. apply lookup_insert_eq.
  - intros ac Hac%elem_of_zip_l.
    erewrite installed_slot_slots; [by apply context_installed_elem|done].
  - split; [done|]. simpl. split; [done|].
    intros s' Hne. rewrite Ho' by done. simpl. by apply lookup_insert_ne.
Qed.

Lemma killed_replicate w s ctx n :
  scopes w !! s = Some (ScopedCtx ctx (replicate n None)) → killed w s = true.
Proof.
  intros H. unfold killed. rewrite H. simpl.
  apply forallb_forall. intros c Hc'%list_elem_of_In%elem_of_replicate.
  apply bool_decide_eq_true_2. tauto.
Qed.

Lemma activate_calls th s w :
  calls (ScopedContext.activate th s w).2 = calls w ++ [CallActivate s th].
Proof.
  unfold ScopedContext.activate. unfold bind at 1. unfold modify at 1.
  match goal with |- calls (?c ?w0).2 = _ => assert (keeps calls c) as H end.
  { apply keeps_bind; [apply keeps_self|intros sc].
    apply keeps_for_each. intros x.
    apply keeps_bind; [apply keeps_slot|intros scope]. by apply keeps_sv_activate. }
  by rewrite H.
Qed.

Lemma kill_calls th s w :
  calls (ScopedContext.kill th s w).2 = calls w ++ [CallKill s th].
Proof.
  unfold ScopedContext.kill. unfold bind at 1. unfold modify at 1.
  match goal with |- calls (?c ?w0).2 = _ => assert (keeps calls c) as H end.
  { apply keeps_bind; [apply keeps_self|intros sc].
    apply keeps_bind; [by apply keeps_modify|intros _].
    apply keeps_for_each. intros x. apply keeps_bind.
    - destruct x.2; [|done].
      apply keeps_bind; [apply keeps_slot|intros scope]. by apply keeps_sv_kill.
    - intros _. by apply keeps_modify. }
  by rewrite H.
Qed.

End scope.

(** * The wrapper around a work item *)

Section wrapper.
Import AsyncLibrary.

Lemma kills_app scope l l' : kills scope (l ++ l') = kills scope l + kills scope l'.
Proof. unfold kills. by rewrite List.filter_app, length_app. Qed.

Lemma activations_app scope l l' :
  activations scope (l ++ l') = activations scope l + activations scope l'.
Proof. unfold activations. by rewrite List.filter_app, length_app. Qed.

Lemma run_eq th scope fn w :
  (ScopedContext.activate th scope w).1 = Ok tt →
  (fn (ScopedContext.activate th scope w).2).1 ≠ Blocked →
  _run th scope fn w =
    (match (ScopedContext.kill th scope (fn (ScopedContext.activate th scope w).2).2).1 with
     | Ok _ => (fn (ScopedContext.activate th scope w).2).1
     | Raise e => Raise e
     | Blocked => Blocked
     end,
     (ScopedContext.kill th scope (fn (ScopedContext.activate th scope w).2).2).2).
Proof.
  intros Ha Hfn.
  unfold _run, with_, ScopedContext.__enter__, ScopedContext.__exit__.
  unfold bind at 1.
  destruct (ScopedContext.activate th scope w) as [c w1]. simpl in *. subst c.
  unfold ret at 1.
  destruct (fn w1) as [[v|e|] w2]; simpl in *; [| |done].
  - unfold bind.
    by destruct (ScopedContext.kill th scope w2) as [[[]|e'|] w3].
  - unfold bind.
    by destruct (ScopedContext.kill th scope w2) as [[[]|e'|] w3].
Qed.

(** C3. The wrapper [_run] around a dispatched work item, on a scope
    whose context has its slots installed and for a work item that ends
    (by returning or by raising) without calling into the scope itself:
    the scope is activated, the item runs in the activated state, and the
    scope is killed in the state the item leaves behind.  The log of
    calls grows by exactly one [activate] followed by one [kill] of that
    scope, whether the item returned or raised, and the outcome of the
    item is the outcome of the wrapper. *)
Theorem run_activates_once_kills_once (th : thread) (scope : nat)
    (fn : M pyval) (w : world) :
  scope_ok w scope = true →
  (fn (ScopedContext.activate th scope w).2).1 ≠ Blocked →
  calls (fn (ScopedContext.activate th scope w).2).2
    = calls (ScopedContext.activate th scope w).2 →
  let w1 := (ScopedContext.activate th scope w).2 in
  let r := _run th scope fn w in
  (ScopedContext.activate th scope w).1 = Ok tt ∧
  r.2 = (ScopedContext.kill th scope (fn w1).2).2 ∧
  calls r.2 = calls w ++ [CallActivate scope th; CallKill scope th] ∧
  activations scope (calls r.2) = activations scope (calls w) + 1 ∧
  kills scope (calls r.2) = kills scope (calls w) + 1 ∧
  r.1 = match (ScopedContext.kill th scope (fn w1).2).1 with
        | Ok _ => (fn w1).1
        | Raise e => Raise e
        | Blocked => Blocked
        end.
Proof.
  intros Hok Hfn Hquiet w1 r.
  pose proof (activate_ok th scope w Hok) as Ha.
  assert (calls r.2 = calls w ++ [CallActivate scope th; CallKill scope th]) as Hlog.
  { unfold r. rewrite run_eq by done. simpl.
    rewrite kill_calls, Hquiet, activate_calls. by rewrite <- app_assoc. }
  split; [done|]. split; [unfold r; by rewrite run_eq|]. split; [done|].
  rewrite Hlog, activations_app, kills_app.
  unfold activations, kills. simpl. rewrite !bool_decide_eq_true_2 by done. simpl.
  split; [done|]. split; [done|]. unfold r. by rewrite run_eq.
Qed.

End wrapper.

(** * Shutdown drain *)

Section drain.
Import AsyncLibrary.

Local Opaque ScopedContext._attributes.

(** What the loop of [_wait_all] preserves from one state to a later
    one. *)
Record drained_from (w w' : world) : Prop := {
  dr_future : _future w' = _future w;
  dr_scope_ok : ∀ s, scope_ok w s = true → scope_ok w' s = true;
  dr_scope_of : ∀ f, scope_of w' f = scope_of w f;
  dr_cancellable : ∀ f, cancellable w' f = cancellable w f;
  dr_state : ∀ f, cancellable w f = false → state_of f w' = state_of f w;
  dr_killed : ∀ s, killed w s = true → killed w' s = true;
  dr_cancelled : ∀ f, cancelled w f = true → cancelled w' f = true;
}.

Lemma drained_refl w : drained_from w w.
Proof. by split. Qed.

Lemma drained_trans w1 w2 w3 :
  drained_from w1 w2 → drained_from w2 w3 → drained_from w1 w3.
Proof.
  intros [A1 A2 A3 A4 A5 A6 A7] [B1 B2 B3 B4 B5 B6 B7]. split.
  - by rewrite B1.
  - auto.
  - intros f. by rewrite B3.
  - intros f. by rewrite B4.
  - intros f Hf. rewrite B5; [auto|]. by rewrite A4.
  - auto.
  - auto.
Qed.

Lemma pool_set_state f st w f' :
  pool (set_state f st w) !! f' =
    if decide (f' = f)
    then (λ fut, Future st (_scope fut) (f_fn fut)) <$> pool w !! f
    else pool w !! f'.
Proof.
  unfold set_state. simpl. destruct (pool w !! f) as [fut|] eqn:E.
  - case_decide as Hf; [subst f'; by rewrite lookup_insert_eq|].
    by rewrite lookup_insert_ne.
  - case_decide as Hf; [by subst f'|done].
Qed.

Lemma same_pool w w' :
  pool w' = pool w →
  (∀ f, scope_of w' f = scope_of w f) ∧
  (∀ f, state_of f w' = state_of f w).
Proof. intros H. unfold scope_of, state_of. by rewrite H. Qed.

Lemma cancel_drained f w :
  is_Some (pool w !! f) →
  ∃ w', cancel f w = (Ok (cancellable w f), w') ∧
        drained_from w w' ∧
        calls w' = calls w ∧
        (cancellable w f = true → cancelled w' f = true).
Proof.
  intros [fut Hfut].
  assert (state_of f w = Some (f_state fut)) as Hst
    by (unfold state_of; by rewrite Hfut).
  unfold cancel, cancellable. rewrite Hst.
  destruct (f_state fut) eqn:Efs; try (exists w; split; [done|];
    split; [apply drained_refl|]; split; [done|];
    unfold cancelled; by rewrite Hst).
  exists (set_state f CANCELLED w). split; [done|]. split; [|split; [done|]].
  - split.
    + done.
    + done.
    + intros f'. unfold scope_of. rewrite pool_set_state.
      case_decide; [subst f'; by rewrite Hfut|done].
    + intros f'. unfold cancellable, state_of. rewrite pool_set_state.
      case_decide; [subst f'; rewrite Hfut; simpl; by rewrite Efs|done].
    + intros f'. unfold cancellable, state_of. rewrite pool_set_state.
      case_decide; [subst f'; rewrite Hfut; simpl; by rewrite Efs|done].
    + done.
    + intros f'. unfold cancelled, state_of. rewrite pool_set_state.
      case_decide; [subst f'; rewrite Hfut; simpl; by rewrite Efs|done].
  - intros _. unfold cancelled, state_of. rewrite pool_set_state.
    rewrite decide_True by done. by rewrite Hfut.
Qed.

Lemma kill_drained th s w :
  scope_ok w s = true →
  ∃ w', ScopedContext.kill th s w = (Ok tt, w') ∧
        drained_from w w' ∧
        calls w' = calls w ++ [CallKill s th] ∧
        killed w' s = true.
Proof.
  intros Hok. pose proof Hok as Hok'. unfold scope_ok in Hok'.
  destruct (scopes w !! s) as [sc|] eqn:E; [|done].
  destruct (kill_ok th s w sc E Hok') as (Hr & Hs & Ho).
  pose proof (kill_calls th s w) as Hc.
  assert (pool (ScopedContext.kill th s w).2 = pool w) as Hp
    by (apply keeps_kill; done).
  assert (_future (ScopedContext.kill th s w).2 = _future w) as Hf
    by (apply keeps_kill; done).
  pose proof (keeps_slots_kill th s w) as Hsl.
  destruct (ScopedContext.kill th s w) as [c w']. simpl in *. subst c.
  destruct (same_pool w w' Hp) as [Hsc Hst].
  exists w'. split; [done|]. split; [|split; [done|]].
  - split.
    + done.
    + intros s0 H0. unfold scope_ok in *.
      destruct (decide (s0 = s)) as [->|Hne].
      * rewrite Hs, E in *. simpl. by rewrite (context_installed_slots w).
      * rewrite Ho by done. destruct (scopes w !! s0); [|done].
        by rewrite (context_installed_slots w).
    + done.
    + intros f. unfold cancellable. by rewrite Hst.
    + intros f _. apply Hst.
    + intros s0 H0. destruct (decide (s0 = s)) as [->|Hne].
      * by eapply killed_replicate.
      * unfold killed in *. by rewrite Ho.
    + intros f. unfold cancelled. by rewrite Hst.
  - by eapply killed_replicate.
Qed.

Lemma omap_pointwise {A C} (g h : A → option C) (l : list A) :
  (∀ x, g x = h x) → omap g l = omap h l.
Proof.
  intros Hgh. induction l as [|x l IH]; [done|]. csimpl. by rewrite Hgh, IH.
Qed.

Lemma drain_log_ext th w w' fs :
  drained_from w w' → drain_log th w' fs = drain_log th w fs.
Proof.
  intros [_ _ Hsc Hca _ _ _]. unfold drain_log.
  apply omap_pointwise. intros f. by rewrite Hsc, Hca.
Qed.

Lemma drain_spec th fs : ∀ acc w,
  (∀ f, f ∈ fs → ∃ s, scope_of w f = Some s ∧ scope_ok w s = true) →
  ∃ w', drain th fs acc w
          = (Ok (acc ++ filter (λ f, cancellable w f = false) fs), w') ∧
        drained_from w w' ∧
        calls w' = calls w ++ drain_log th w fs ∧
        (∀ f s, f ∈ fs → cancellable w f = true → scope_of w f = Some s →
                killed w' s = true ∧ cancelled w' f = true).
Proof.
  induction fs as [|f fs IH]; intros acc w Hpre.
  { exists w. simpl. rewrite !app_nil_r. split; [done|].
    split; [apply drained_refl|]. split; [done|].
    intros f s Hf. by apply elem_of_nil in Hf. }
  destruct (Hpre f (list_elem_of_here _ _)) as (s & Hs & Hok).
  assert (is_Some (pool w !! f)) as Hin.
  { unfold scope_of in Hs. destruct (pool w !! f); [by eexists|done]. }
  destruct (cancel_drained f w Hin) as (w1 & Hcancel & Hd1 & Hc1 & Hcd1).
  assert (∀ w2, drained_from w w2 →
            ∀ f', f' ∈ fs → ∃ s', scope_of w2 f' = Some s' ∧ scope_ok w2 s' = true)
    as Hpre'.
  { intros w2 Hd f' Hf'.
    destruct (Hpre f' (list_elem_of_further _ _ _ Hf')) as (s' & Hs' & Hok').
    exists s'. split; [by rewrite (dr_scope_of _ _ Hd)|by apply (dr_scope_ok _ _ Hd)]. }
  simpl drain. unfold bind at 1. rewrite Hcancel.
  destruct (cancellable w f) eqn:Ecf.
  - (* cancelled: kill its scope *)
    unfold bind at 1.
    assert (scope_of w1 f = Some s) as Hs1 by by rewrite (dr_scope_of _ _ Hd1).
    unfold scope_of in Hs1. destruct (pool w1 !! f) as [fut|] eqn:Ep; [|done].
    simpl in Hs1. injection Hs1 as Hs1. rewrite Hs1.
    destruct (kill_drained th s w1 (dr_scope_ok _ _ Hd1 _ Hok))
      as (w2 & Hkill & Hd2 & Hc2 & Hk2).
    unfold bind at 1. rewrite Hkill.
    pose proof (drained_trans _ _ _ Hd1 Hd2) as Hd.
    destruct (IH acc w2 (Hpre' w2 Hd)) as (w' & Hdrain & Hd' & Hc' & Hk').
    exists w'. split; [|split; [|split]].
    + rewrite Hdrain. do 2 f_equal. rewrite filter_cons, decide_False by congruence.
      f_equal. apply list_filter_iff. intros f'. by rewrite (dr_cancellable _ _ Hd).
    + by eapply drained_trans.
    + rewrite Hc', Hc2, Hc1, (drain_log_ext th w w2) by done.
      unfold drain_log at 2. simpl. rewrite Ecf, Hs. simpl. by rewrite <- app_assoc.
    + intros f' s' [->|Hf']%elem_of_cons Hcf' Hsf'.
      * assert (s' = s) as -> by congruence.
        split; [by apply (dr_killed _ _ Hd')|].
        apply (dr_cancelled _ _ Hd'), (dr_cancelled _ _ Hd2). by apply Hcd1.
      * apply Hk'; [done|by rewrite (dr_cancellable _ _ Hd)|by rewrite (dr_scope_of _ _ Hd)].
  - (* not cancelled: keep it for the wait *)
    destruct (IH (acc ++ [f]) w1 (Hpre' w1 Hd1)) as (w' & Hdrain & Hd' & Hc' & Hk').
    exists w'. split; [|split; [|split]].
    + rewrite Hdrain. do 2 f_equal. rewrite filter_cons, decide_True by done.
      rewrite <- app_assoc. simpl. do 2 f_equal.
      apply list_filter_iff. intros f'. by rewrite (dr_cancellable _ _ Hd1).
    + by eapply drained_trans.
    + rewrite Hc', Hc1, (drain_log_ext th w w1) by done.
      unfold drain_log at 2. simpl. by rewrite Ecf.
    + intros f' s' [->|Hf']%elem_of_cons Hcf' Hsf'; [congruence|].
      apply Hk'; [done|by rewrite (dr_cancellable _ _ Hd1)|by rewrite (dr_scope_of _ _ Hd1)].
Qed.

Lemma registry_ok_elem w f :
  registry_ok w = true → f ∈ registered w →
  ∃ s, scope_of w f = Some s ∧ scope_ok w s = true.
Proof.
  unfold registry_ok. rewrite forallb_forall. intros H Hf%list_elem_of_In.
  apply H in Hf. destruct (scope_of w f) as [s|]; [by exists s|done].
Qed.

Lemma drain_registry_spec th w :
  registry_ok w = true →
  ∃ w', drain_registry th w
          = (Ok (filter (λ f, cancellable w f = false) (registered w)),
             set_future (λ _, ∅) w') ∧
        drained_from w w' ∧
        calls w' = calls w ++ drain_log th w (registered w) ∧
        (∀ f s, f ∈ registered w → cancellable w f = true → scope_of w f = Some s →
                killed w' s = true ∧ cancelled w' f = true).
Proof.
  intros Hok.
  destruct (drain_spec th (registered w) [] w) as (w' & Hd & Hrest).
  { intros f Hf. by apply registry_ok_elem. }
  exists w'. split; [|done].
  unfold drain_registry, bind, gets, values, ret. fold (registered w).
  by rewrite Hd.
Qed.

Lemma drain_log_elem th w fs f s :
  f ∈ fs → cancellable w f = true → scope_of w f = Some s →
  CallKill s th ∈ drain_log th w fs.
Proof.
  intros Hf Hc Hs. unfold drain_log. apply list_elem_of_omap.
  exists f. split; [done|]. by rewrite Hc, Hs.
Qed.


End drain.

(** * Installing the redirects once *)

Section names.

Lemma inner_not_leaf q : q ∈ inner_names → q ∉ leaf_names.
Proof.
  revert q. apply Forall_forall. apply (bool_decide_unpack _). by vm_compute.
Qed.

Lemma scoped_not_leaf p : p ∈ leaf_names → scoped_name p ∉ leaf_names.
Proof.
  revert p. apply Forall_forall. apply (bool_decide_unpack _). by vm_compute.
Qed.

Lemma inner_not_scoped q p : q ∈ inner_names → p ∈ leaf_names → q ≠ scoped_name p.
Proof.
  intros Hq Hp.
  assert (Forall (λ p, Forall (λ q, q ≠ scoped_name p) inner_names) leaf_names) as H
    by (apply (bool_decide_unpack _); by vm_compute).
  rewrite Forall_forall in H. specialize (H p Hp).
  rewrite Forall_forall in H. by apply H.
Qed.

Lemma leaf_not_scoped p p' : p ∈ leaf_names → p' ∈ leaf_names → p ≠ scoped_name p'.
Proof. intros Hp Hp' ->. by apply (scoped_not_leaf p'). Qed.

Lemma length_append s1 s2 :
  String.length (s1 +:+ s2) = String.length s1 + String.length s2.
Proof.
  induction s1 as [|c s1 IH]; [done|].
  change (String c s1 +:+ s2) with (String c (s1 +:+ s2)).
  cbn [String.length]. by rewrite IH.
Qed.

Lemma scoped_name_ne p : p ≠ scoped_name p.
Proof.
  intros H%(f_equal String.length). unfold scoped_name in H.
  rewrite length_append in H. simpl in H. lia.
Qed.

Lemma scoped_name_inj p p' : scoped_name p = scoped_name p' → p = p'.
Proof. unfold scoped_name. apply String.app_inj. Qed.

Lemma attribute_split a :
  a ∈ ScopedContext._attributes →
  a = removelast a ++ [List.last a ""] ∧
  List.last a "" ∈ leaf_names ∧
  Forall (λ q, q ∈ inner_names) (removelast a).
Proof.
  revert a. apply Forall_forall. apply (bool_decide_unpack _). by vm_compute.
Qed.

End names.

Section patch.
Import ScopedContext.

Local Opaque _attributes.

Lemma descriptors_ok_elem w i ob p :
  descriptors_ok w = true → objs w !! i = Some ob → p ∈ descriptors ob →
  p ∈ leaf_names.
Proof.
  unfold descriptors_ok. rewrite forallb_forall. intros H Hi Hp.
  specialize (H (i, ob)). rewrite <- list_elem_of_In, elem_of_map_to_list in H.
  specialize (H Hi). simpl in H. rewrite forallb_forall in H.
  specialize (H p). rewrite <- list_elem_of_In, elem_of_elements in H.
  apply H in Hp. by apply bool_decide_eq_true_1 in Hp.
Qed.

Lemma descriptors_ok_intro w :
  (∀ i ob p, objs w !! i = Some ob → p ∈ descriptors ob → p ∈ leaf_names) →
  descriptors_ok w = true.
Proof.
  intros H. unfold descriptors_ok. apply forallb_forall.
  intros [i ob] Hio%list_elem_of_In%elem_of_map_to_list. simpl.
  apply forallb_forall. intros p Hp%list_elem_of_In%elem_of_elements.
  apply bool_decide_eq_true_2. by eapply H.
Qed.

Lemma getattr_world th cur q w : (getattr th cur q w).2 = w.
Proof. unfold getattr, descriptor_get. by repeat case_match. Qed.

(** Reading a name that no class redirects is a plain lookup. *)
Lemma getattr_plain_inv th w cur q v :
  descriptors_ok w = true → q ∉ leaf_names →
  (getattr th cur q w).1 = Ok v →
  plain_follow (objs w) [q] cur = Some v.
Proof.
  intros Hd Hq. unfold getattr. simpl.
  destruct cur as [| | | |i|]; try done.
  destruct (objs w !! i) as [ob|] eqn:E; [|done].
  case_decide as Hin; [by apply (descriptors_ok_elem w i ob q) in Hin|].
  destruct (attrs ob !! q); [|done]. simpl. by intros [= ->].
Qed.

Lemma walk_inner th w inner p : ∀ x y cur parent,
  plain_follow (objs w) inner cur = Some parent →
  walk th (inner ++ [p]) (x, y, cur) w
    = (let! v := getattr th parent p in ret (parent, p, v)) w.
Proof.
  induction inner as [|q inner IH]; intros x y cur parent H.
  { simpl in H. by injection H as ->. }
  change (q :: inner) with ([q] ++ inner) in H. rewrite plain_follow_app in H.
  destruct (plain_follow (objs w) [q] cur) as [v|] eqn:E; [|done].
  simpl. unfold bind at 1. rewrite (getattr_plain th w cur q v E).
  by apply IH.
Qed.

Lemma walk_inner_inv th w inner p : ∀ x y cur st,
  descriptors_ok w = true →
  Forall (λ q, q ∈ inner_names) inner →
  (walk th (inner ++ [p]) (x, y, cur) w).1 = Ok st →
  ∃ parent, plain_follow (objs w) inner cur = Some parent.
Proof.
  induction inner as [|q inner IH]; intros x y cur st Hd Hin Hw.
  { by exists cur. }
  apply Forall_cons in Hin as [Hq Hin].
  simpl in Hw. unfold bind at 1 in Hw.
  pose proof (getattr_world th cur q w) as Hgw.
  destruct (getattr th cur q w) as [[v|e|] w1] eqn:Eg; simpl in *; try done.
  subst w1.
  assert (plain_follow (objs w) [q] cur = Some v) as Hp.
  { apply (getattr_plain_inv th); [done|by apply inner_not_leaf|by rewrite Eg]. }
  destruct (IH _ _ _ _ Hd Hin Hw) as [parent Hparent].
  exists parent.
  etrans; [apply (plain_follow_app _ [q] inner)|]. by rewrite Hp.
Qed.

(** Reading the last name of a wrapped path succeeds on every thread. *)
Lemma getattr_wrapped th w i ob p s :
  objs w !! i = Some ob →
  p ∈ descriptors ob ∨ is_Some (attrs ob !! p) →
  attrs ob !! scoped_name p = Some (VScoped s) →
  is_Some (svs w !! s) →
  ∃ v, getattr th (VObj i) p w = (Ok v, w).
Proof.
  intros Hi Hr Hs [sv Hsv]. unfold getattr. rewrite Hi.
  case_decide as Hp.
  - unfold descriptor_get. rewrite Hs, Hsv. by eexists.
  - destruct Hr as [?|[v Hv]]; [done|]. rewrite Hv. by eexists.
Qed.

(** Resolving a wrapped path finds the existing [ScopedValue] and changes
    nothing. *)
Lemma resolve_wrapped th w ctx a s :
  a ∈ _attributes → wrapped w ctx a s →
  resolve th ctx a w = (Ok (VScoped s), w).
Proof.
  intros Ha (i & ob & Hpar & Hi & Hr & Hnd & Hs & Hlive).
  destruct (attribute_split a Ha) as (Hsplit & _ & _).
  unfold resolve. unfold bind at 1. rewrite Hsplit at 1.
  rewrite (walk_inner th w _ _ _ _ _ _ Hpar).
  destruct (getattr_wrapped th w i ob _ s Hi Hr Hs Hlive) as [v Hv].
  unfold bind at 1. rewrite Hv. unfold ret at 1. cbn [fst snd].
  unfold bind at 1.
  assert (getattr th (VObj i) (scoped_name (List.last a "")) w = (Ok (VScoped s), w)) as ->.
  { unfold getattr. rewrite Hi, decide_False by done. by rewrite Hs. }
  done.
Qed.

Lemma getattr_ok_inv th cur p w v :
  (getattr th cur p w).1 = Ok v →
  ∃ i ob, cur = VObj i ∧ objs w !! i = Some ob ∧
          (p ∈ descriptors ob ∨ is_Some (attrs ob !! p)).
Proof.
  unfold getattr. destruct cur as [| | | |i|]; try done.
  destruct (objs w !! i) as [ob|] eqn:E; [|done].
  intros H. exists i, ob. split; [done|]. split; [done|].
  case_decide; [by left|]. right. by destruct (attrs ob !! p).
Qed.

Lemma install_spec th w i ob p v scope w' :
  objs w !! i = Some ob →
  scoped_name p ∉ descriptors ob →
  (let! scope := new_scoped_value v (_construct !! p) in
   setattr th (VObj i) (scoped_name p) scope ;;;
   delattr (VObj i) p ;;;
   patch_class (VObj i) p ;;;
   ret scope) w = (Ok scope, w') →
  (p ∉ descriptors ob) ∧
  is_Some (attrs ob !! p) ∧
  scope = VScoped (fresh (dom (svs w))) ∧
  objs w' = <[i := patched ob p (fresh (dom (svs w)))]> (objs w) ∧
  svs w' = <[fresh (dom (svs w)) := ScopedValue.new v (_construct !! p)]> (svs w).
Proof.
  intros Hi Hnd H.
  unfold bind, new_scoped_value, setattr, delattr, patch_class, ret in H.
  cbn [objs set_svs set_objs] in H. rewrite Hi in H.
  rewrite decide_False in H by done.
  cbn [objs set_svs set_objs] in H. rewrite lookup_insert_eq in H.
  cbn [descriptors attrs patches] in H.
  destruct (decide (p ∈ descriptors ob)) as [Hp|Hp]; [done|].
  rewrite lookup_insert_ne in H by (intros Heq; by apply (scoped_name_ne p)).
  destruct (attrs ob !! p) as [v0|] eqn:Ep; [|done].
  cbn [objs set_svs set_objs] in H. rewrite lookup_insert_eq in H.
  cbn [descriptors attrs patches] in H.
  injection H as <- <-. cbn [objs svs set_objs set_svs].
  split; [done|]. split; [by eexists|]. split; [done|].
  split; [|done]. by rewrite !insert_insert_eq.
Qed.

Lemma walk_world th a st w : (walk th a st w).2 = w.
Proof. apply (keeps_walk (λ w, w)). Qed.

Lemma plain_follow_patched os i ob p s path : ∀ cur,
  os !! i = Some ob → p ∈ leaf_names →
  Forall (λ q, q ∈ inner_names) path →
  plain_follow (<[i := patched ob p s]> os) path cur = plain_follow os path cur.
Proof.
  induction path as [|q path IH]; intros cur Hi Hp Hpath; [done|].
  apply Forall_cons in Hpath as [Hq Hpath].
  assert (q ≠ p) as Hqp by (intros ->; by apply (inner_not_leaf p)).
  assert (q ≠ scoped_name p) as Hqs by by apply inner_not_scoped.
  simpl. destruct cur as [| | | |j|]; try done.
  destruct (decide (j = i)) as [->|Hne].
  - rewrite lookup_insert_eq, Hi. simpl.
    rewrite lookup_delete_ne, lookup_insert_ne by done.
    rewrite (decide_ext _ (q ∈ descriptors ob)).
    + case_decide; [done|]. destruct (attrs ob !! q); [|done]. by apply IH.
    + rewrite elem_of_union, elem_of_singleton. tauto.
  - rewrite lookup_insert_ne by done.
    destruct (os !! j) as [ob'|]; [|done]. case_decide; [done|].
    destruct (attrs ob' !! q); [|done]. by apply IH.
Qed.

Lemma wrapped_patched w w' ctx i ob p s0 v a s :
  descriptors_ok w = true →
  objs w !! i = Some ob → p ∈ leaf_names →
  (∀ s', attrs ob !! scoped_name p ≠ Some (VScoped s')) →
  objs w' = <[i := patched ob p s0]> (objs w) →
  svs w' = <[s0 := v]> (svs w) →
  a ∈ _attributes → wrapped w ctx a s → wrapped w' ctx a s.
Proof.
  intros Hd Hi Hp Hnew Ho Hs Ha (j & ob' & Hpar & Hj & Hr & Hnd & Hsc & Hlive).
  destruct (attribute_split a Ha) as (_ & Hleaf & Hinner).
  assert (is_Some (svs w' !! s)) as Hlive'.
  { rewrite Hs. destruct (decide (s0 = s)) as [->|?];
      [rewrite lookup_insert_eq; by eexists|by rewrite lookup_insert_ne]. }
  destruct (decide (j = i)) as [->|Hne].
  - assert (ob' = ob) as -> by congruence.
    exists i, (patched ob p s0). split; [|split; [|split; [|split; [|split]]]].
    + rewrite Ho. by rewrite plain_follow_patched.
    + rewrite Ho. apply lookup_insert_eq.
    + simpl. destruct Hr as [Hr|Hr]; [left; apply elem_of_union; by right|].
      destruct (decide (List.last a "" = p)) as [->|Hlp].
      { left. apply elem_of_union. left. by apply elem_of_singleton. }
      right. rewrite lookup_delete_ne, lookup_insert_ne; [done| |done].
      intros Heq. by apply (leaf_not_scoped (List.last a "") p).
    + simpl. rewrite elem_of_union, elem_of_singleton. intros [Heq|Hin]; [|done].
      by apply (leaf_not_scoped p (List.last a "")).
    + simpl. rewrite lookup_delete_ne.
      * rewrite lookup_insert_ne; [done|].
        intros Heq%scoped_name_inj. subst p. by eapply Hnew.
      * intros Heq. by apply (leaf_not_scoped p (List.last a "")).
    + done.
  - exists j, ob'. split; [|split; [|done]].
    + rewrite Ho. by rewrite plain_follow_patched.
    + rewrite Ho. by rewrite lookup_insert_ne.
Qed.

(** A successful [resolve] leaves the path wrapped, whichever branch it
    took, and keeps every other wrapped path wrapped. *)
Lemma resolve_establishes th w ctx a scope w1 :
  descriptors_ok w = true → a ∈ _attributes →
  resolve th ctx a w = (Ok scope, w1) →
  ∃ s, scope = VScoped s ∧
       descriptors_ok w1 = true ∧
       (is_Some (svs w1 !! s) → wrapped w1 ctx a s) ∧
       (∀ a' s', a' ∈ _attributes → wrapped w ctx a' s' → wrapped w1 ctx a' s') ∧
       (∀ s', is_Some (svs w !! s') → is_Some (svs w1 !! s')).
Proof.
  intros Hd Ha H. destruct (attribute_split a Ha) as (Hsplit & Hleaf & Hinner).
  unfold resolve in H. unfold bind at 1 in H.
  pose proof (walk_world th a (VNone, "", VObj ctx) w) as Hww.
  destruct (walk th a (VNone, "", VObj ctx) w) as [[st|e|] w0] eqn:Ew; try done.
  simpl in Hww. subst w0.
  rewrite Hsplit in Ew.
  destruct (walk_inner_inv th w (removelast a) (List.last a "") VNone "" (VObj ctx) st)
    as [parent Hpar]; [done|done|by rewrite Ew|].
  rewrite (walk_inner th w _ _ _ _ _ _ Hpar) in Ew. unfold bind in Ew.
  destruct (getattr th parent (List.last a "") w) as [[v|e|] w0] eqn:Eg; try done.
  unfold ret in Ew. injection Ew as Hst Hw0. subst st w0.
  destruct (getattr_ok_inv th parent (List.last a "") w v) as (i & ob & -> & Hi & Hr);
    [by rewrite Eg|].
  cbn [fst snd] in H. unfold bind at 1 in H.
  assert (scoped_name (List.last a "") ∉ descriptors ob) as Hnd.
  { intros Hin. apply (descriptors_ok_elem w i ob) in Hin; [|done..].
    by apply (scoped_not_leaf (List.last a "")). }
  unfold getattr at 1 in H. rewrite Hi, decide_False in H by done.
  assert (∀ s, is_Some (svs w !! s) →
               attrs ob !! scoped_name (List.last a "") = Some (VScoped s) →
               wrapped w ctx a s) as Hreuse.
  { intros s Hlive Hs. by exists i, ob. }
  assert ((let! scope := new_scoped_value v (_construct !! List.last a "") in
           setattr th (VObj i) (scoped_name (List.last a "")) scope ;;;
           delattr (VObj i) (List.last a "") ;;;
           patch_class (VObj i) (List.last a "") ;;;
           ret scope) w = (Ok scope, w1) →
          (∀ s', attrs ob !! scoped_name (List.last a "") ≠ Some (VScoped s')) →
          ∃ s, scope = VScoped s ∧
               descriptors_ok w1 = true ∧
               (is_Some (svs w1 !! s) → wrapped w1 ctx a s) ∧
               (∀ a' s', a' ∈ _attributes → wrapped w ctx a' s' → wrapped w1 ctx a' s') ∧
               (∀ s', is_Some (svs w !! s') → is_Some (svs w1 !! s'))) as Hinstall.
  { intros Hi' Hnew.
    apply (install_spec th w i ob) in Hi' as (Hp & Hattr & -> & Ho & Hs); [|done..].
    eexists. split; [done|]. split; [|split; [|split]].
    - apply descriptors_ok_intro. intros j ob' q. rewrite Ho.
      destruct (decide (j = i)) as [->|Hne].
      + rewrite lookup_insert_eq. intros [= <-]. simpl.
        rewrite elem_of_union, elem_of_singleton. intros [->|Hq]; [done|].
        by apply (descriptors_ok_elem w i ob).
      + rewrite lookup_insert_ne by done. apply descriptors_ok_elem. done.
    - intros _. exists i, (patched ob (List.last a "") (fresh (dom (svs w)))).
      split; [|split; [|split; [|split; [|split]]]].
      + rewrite Ho. by rewrite plain_follow_patched.
      + rewrite Ho. apply lookup_insert_eq.
      + left. simpl. apply elem_of_union. left. by apply elem_of_singleton.
      + simpl. rewrite elem_of_union, elem_of_singleton.
        intros [Heq|Hin]; [|done]. symmetry in Heq. by apply scoped_name_ne in Heq.
      + simpl. rewrite lookup_delete_ne by apply scoped_name_ne.
        apply lookup_insert_eq.
      + rewrite Hs, lookup_insert_eq. by eexists.
    - intros a' s' Ha' Hw'. by eapply (wrapped_patched w w1).
    - intros s' Hlive. rewrite Hs.
      destruct (decide (fresh (dom (svs w)) = s')) as [->|?];
        [rewrite lookup_insert_eq; by eexists|by rewrite lookup_insert_ne]. }
  destruct (attrs ob !! scoped_name (List.last a "")) as [sv0|] eqn:Es.
  - destruct (is_scoped_value sv0) eqn:Eis.
    + destruct sv0 as [| | | | |s]; try done. unfold ret in H. injection H as <- <-.
      exists s. split; [done|]. split; [done|]. split; [|done].
      intros Hlive. by apply Hreuse.
    + apply Hinstall; [done|]. intros s' [= ->]. done.
  - apply Hinstall; [done|]. done.
Qed.

Lemma wrapped_slots w w' ctx a s :
  slots w' = slots w → wrapped w ctx a s → wrapped w' ctx a s.
Proof.
  unfold slots. intros [= Ho Hd] (i & ob & Hpar & Hi & Hr & Hnd & Hs & Hlive).
  exists i, ob. rewrite Ho. repeat (split; [done|]).
  by rewrite <- elem_of_dom, Hd, elem_of_dom.
Qed.

Lemma descriptors_ok_objs w w' :
  objs w' = objs w → descriptors_ok w' = descriptors_ok w.
Proof. intros H. unfold descriptors_ok. by rewrite H. Qed.

Lemma sv_fork_inv scope w c w' :
  sv_fork scope w = (Ok c, w') →
  ∃ s, scope = VScoped s ∧ is_Some (svs w !! s) ∧ slots w' = slots w.
Proof.
  unfold sv_fork. destruct scope as [| | | | |s]; try done.
  destruct (svs w !! s) as [sv|] eqn:E; [|done]. intros [= <- <-].
  exists s. split; [done|]. split; [by eexists|].
  apply slots_sv_update. by eexists.
Qed.

Lemma fork_all_establishes th ctx paths : ∀ w forks w',
  descriptors_ok w = true →
  (∀ a, a ∈ paths → a ∈ _attributes) →
  fork_all th ctx paths w = (Ok forks, w') →
  descriptors_ok w' = true ∧
  (∀ a, a ∈ paths → ∃ s, wrapped w' ctx a s) ∧
  (∀ a s, a ∈ _attributes → wrapped w ctx a s → wrapped w' ctx a s).
Proof.
  induction paths as [|a rest IH]; intros w forks w' Hd Hsub H.
  { injection H as <- <-. split; [done|]. split; [|done].
    intros a Ha. by apply elem_of_nil in Ha. }
  simpl in H. unfold bind at 1 in H.
  destruct (resolve th ctx a w) as [[scope|e|] w1] eqn:Er; try done.
  unfold bind at 1 in H.
  destruct (sv_fork scope w1) as [[c|e|] w2] eqn:Ef; try done.
  unfold bind at 1 in H.
  destruct (fork_all th ctx rest w2) as [[cs|e|] w3] eqn:Er3; try done.
  unfold ret in H. injection H as <- <-.
  destruct (resolve_establishes th w ctx a scope w1 Hd) as
    (s & -> & Hd1 & Hw1 & Hpres1 & Hlive1); [apply Hsub, list_elem_of_here|done|].
  destruct (sv_fork_inv _ _ _ _ Ef) as (s' & [= <-] & Hlive & Hsl).
  assert (descriptors_ok w2 = true) as Hd2.
  { rewrite (descriptors_ok_objs w1); [done|]. by injection Hsl. }
  destruct (IH w2 cs w3 Hd2) as (Hd3 & Hw3 & Hpres3); [|done|].
  { intros a' Ha'. by apply Hsub, list_elem_of_further. }
  split; [done|]. split.
  - intros a' [->|Ha']%elem_of_cons; [|by apply Hw3].
    exists s. apply Hpres3; [apply Hsub, list_elem_of_here|].
    apply (wrapped_slots w1); [done|]. by apply Hw1.
  - intros a' s0 Ha' Hw0. apply Hpres3; [done|].
    apply (wrapped_slots w1); [done|]. by apply Hpres1.
Qed.

Lemma fork_all_wrapped th ctx paths : ∀ w,
  (∀ a, a ∈ paths → a ∈ _attributes ∧ ∃ s, wrapped w ctx a s) →
  ∃ forks w', fork_all th ctx paths w = (Ok forks, w') ∧ slots w' = slots w.
Proof.
  induction paths as [|a rest IH]; intros w H.
  { by exists [], w. }
  destruct (H a (list_elem_of_here _ _)) as (Ha & s & Hw).
  simpl. unfold bind at 1. rewrite (resolve_wrapped th w ctx a s Ha Hw).
  unfold bind at 1. unfold sv_fork.
  destruct Hw as (i & ob & Hpar & Hi & Hr & Hnd & Hs & [sv Hlive]). rewrite Hlive.
  set (w1 := set_svs _ w).
  assert (slots w1 = slots w) as Hsl by (apply slots_sv_update; by eexists).
  destruct (IH w1) as (cs & w' & Hrest & Hsl').
  { intros a' Ha'. destruct (H a' (list_elem_of_further _ _ _ Ha')) as (Hin & s' & Hw').
    split; [done|]. exists s'. by apply (wrapped_slots w). }
  unfold bind at 1. rewrite Hrest. unfold ret.
  eexists _, w'. split; [done|]. by rewrite Hsl'.
Qed.

Lemma init_eq th w :
  __init__ th w =
    match fork_all th (context w) _attributes w with
    | (Ok forks, w0) =>
        (Ok (fresh (dom (scopes w0))),
         set_scopes <[fresh (dom (scopes w0)) := ScopedCtx (context w) forks]> w0)
    | (Raise e, w0) => (Raise e, w0)
    | (Blocked, w0) => (Blocked, w0)
    end.
Proof.
  unfold __init__, bind, gets. simpl.
  by destruct (fork_all th (context w) _attributes w) as [[forks|e|] w0].
Qed.

(** C9. Installing the redirects is idempotent.  Once a [ScopedContext]
    has been built on a context (whose classes redirect at most last names
    of declared paths), every declared attribute path is wrapped:
    resolving it again, from any thread, returns the existing
    [ScopedValue] and changes nothing; and building a second
    [ScopedContext] succeeds and leaves every object of the context as it
    was (same backing attributes, same descriptors, same number of
    patched class layers) and creates no [ScopedValue]. *)
Theorem init_reuses_installed_slots (th th' : thread) (w : world) (scope : nat) :
  descriptors_ok w = true →
  (__init__ th w).1 = Ok scope →
  let w1 := (__init__ th w).2 in
  let r := __init__ th' w1 in
  (∀ a, a ∈ _attributes →
     ∃ s, wrapped w1 (context w1) a s ∧
          resolve th' (context w1) a w1 = (Ok (VScoped s), w1)) ∧
  (∃ scope', r.1 = Ok scope') ∧
  objs r.2 = objs w1 ∧
  dom (svs r.2) = dom (svs w1).
Proof.
  intros Hd Hinit w1 r. subst w1 r. rewrite init_eq in Hinit.
  rewrite (init_eq th w).
  assert (context (fork_all th (context w) _attributes w).2 = context w) as Hctx
    by (apply keeps_fork_all; done).
  destruct (fork_all th (context w) _attributes w) as [[forks|e|] w0] eqn:Ef;
    try done.
  simpl in Hctx.
  destruct (fork_all_establishes th (context w) _attributes w forks w0 Hd)
    as (Hd0 & Hw0 & _); [done|done|].
  cbn [fst snd]. set (w1 := set_scopes _ w0).
  assert (context w1 = context w) as Hctx1 by done. rewrite Hctx1.
  assert (∀ a, a ∈ _attributes → ∃ s, wrapped w1 (context w) a s) as Hw1.
  { intros a Ha. destruct (Hw0 a Ha) as [s Hs]. exists s.
    by apply (wrapped_slots w0). }
  split.
  { intros a Ha. destruct (Hw1 a Ha) as [s Hs]. exists s.
    split; [done|]. by apply resolve_wrapped. }
  destruct (fork_all_wrapped th' (context w) _attributes w1) as (fs & w2 & Hf2 & Hsl).
  { intros a Ha. split; [done|]. by apply Hw1. }
  rewrite init_eq, Hctx1, Hf2. cbn [fst snd objs svs set_scopes].
  unfold slots in Hsl. injection Hsl as Ho Hdom.
  split; [by eexists|]. done.
Qed.

End patch.

(** * Dispatching on a context that can be forked *)

Section dispatch.
Import ScopedContext AsyncLibrary.

Local Ltac frame := first [done | by intros].
Local Opaque _attributes.

Lemma resolvable_cases w ctx a :
  resolvable w ctx a = true →
  (∃ s, wrapped w ctx a s) ∨
  (∃ i ob,
     plain_follow (objs w) (removelast a) (VObj ctx) = Some (VObj i) ∧
     objs w !! i = Some ob ∧
     (scoped_name (List.last a "") ∉ descriptors ob) ∧
     (∀ s, attrs ob !! scoped_name (List.last a "") ≠ Some (VScoped s)) ∧
     (List.last a "" ∉ descriptors ob) ∧
     is_Some (attrs ob !! List.last a "")).
Proof.
  unfold resolvable.
  destruct (plain_follow _ _ _) as [[| | | |i|]|] eqn:Hpar; try done.
  destruct (objs w !! i) as [ob|] eqn:Hi; [|done].
  intros [Hnd H]%andb_true_iff.
  apply negb_true_iff, bool_decide_eq_false_1 in Hnd.
  assert (negb (bool_decide (List.last a "" ∈ descriptors ob)) &&
          bool_decide (is_Some (attrs ob !! List.last a "")) = true →
          (List.last a "" ∉ descriptors ob) ∧ is_Some (attrs ob !! List.last a ""))
    as Hplain.
  { intros [H1 H2]%andb_true_iff.
    apply negb_true_iff, bool_decide_eq_false_1 in H1.
    by apply bool_decide_eq_true_1 in H2. }
  destruct (attrs ob !! scoped_name (List.last a "")) as [sv0|] eqn:Es.
  - destruct sv0 as [| | | | |s];
      try (right; exists i, ob; destruct (Hplain H);
           repeat (split; [first [done|intros; congruence]|]); done).
    left. exists s, i, ob. apply andb_true_iff in H as [Hlive Hr].
    apply bool_decide_eq_true_1 in Hlive.
    apply orb_true_iff in Hr as [Hr|Hr]; apply bool_decide_eq_true_1 in Hr;
      repeat (split; [done|]); (split; [by auto|done]).
  - right. exists i, ob. destruct (Hplain H).
    repeat (split; [first [done|intros; congruence]|]); done.
Qed.

Lemma resolvable_wrapped w ctx a s : wrapped w ctx a s → resolvable w ctx a = true.
Proof.
  intros (i & ob & Hpar & Hi & Hr & Hnd & Hs & Hlive).
  unfold resolvable. rewrite Hpar, Hi, Hs.
  rewrite bool_decide_eq_false_2 by done.
  rewrite (bool_decide_eq_true_2 _ Hlive). simpl.
  destruct Hr as [Hr|Hr]; rewrite (bool_decide_eq_true_2 _ Hr); [done|].
  apply orb_true_r.
Qed.

Lemma resolvable_unwrapped w ctx a i ob :
  plain_follow (objs w) (removelast a) (VObj ctx) = Some (VObj i) →
  objs w !! i = Some ob →
  scoped_name (List.last a "") ∉ descriptors ob →
  (∀ s, attrs ob !! scoped_name (List.last a "") ≠ Some (VScoped s)) →
  List.last a "" ∉ descriptors ob →
  is_Some (attrs ob !! List.last a "") →
  resolvable w ctx a = true.
Proof.
  intros Hpar Hi Hnd Hnew Hp Hattr. unfold resolvable. rewrite Hpar, Hi.
  rewrite (bool_decide_eq_false_2 _ Hnd), (bool_decide_eq_false_2 _ Hp),
    (bool_decide_eq_true_2 _ Hattr). simpl.
  destruct (attrs ob !! scoped_name (List.last a "")) as [[| | | | |s]|] eqn:E;
    try done.
  by destruct (Hnew s).
Qed.

Lemma install_run th w i ob p v :
  objs w !! i = Some ob →
  scoped_name p ∉ descriptors ob →
  p ∉ descriptors ob →
  is_Some (attrs ob !! p) →
  ∃ w',
    (let! scope := new_scoped_value v (_construct !! p) in
     setattr th (VObj i) (scoped_name p) scope ;;;
     delattr (VObj i) p ;;;
     patch_class (VObj i) p ;;;
     ret scope) w = (Ok (VScoped (fresh (dom (svs w)))), w').
Proof.
  intros Hi Hnd Hp [v0 Hattr].
  unfold bind, new_scoped_value, setattr, delattr, patch_class, ret.
  cbn [objs set_svs set_objs]. rewrite Hi.
  rewrite decide_False by done.
  cbn [objs set_svs set_objs]. rewrite lookup_insert_eq.
  cbn [descriptors attrs patches].
  rewrite decide_False by done.
  rewrite lookup_insert_ne by (intros Heq; by apply (scoped_name_ne p)).
  rewrite Hattr.
  cbn [objs set_svs set_objs]. rewrite lookup_insert_eq. by eexists.
Qed.

Lemma resolve_unwrapped_eq th w ctx a i ob v :
  a ∈ _attributes →
  plain_follow (objs w) (removelast a) (VObj ctx) = Some (VObj i) →
  objs w !! i = Some ob →
  scoped_name (List.last a "") ∉ descriptors ob →
  (∀ s, attrs ob !! scoped_name (List.last a "") ≠ Some (VScoped s)) →
  List.last a "" ∉ descriptors ob →
  attrs ob !! List.last a "" = Some v →
  resolve th ctx a w
    = (let! scope := new_scoped_value v (_construct !! List.last a "") in
       setattr th (VObj i) (scoped_name (List.last a "")) scope ;;;
       delattr (VObj i) (List.last a "") ;;;
       patch_class (VObj i) (List.last a "") ;;;
       ret scope) w.
Proof.
  intros Ha Hpar Hi Hnd Hnew Hp Hattr.
  destruct (attribute_split a Ha) as (Hsplit & _ & _).
  unfold resolve. unfold bind at 1. rewrite Hsplit at 1.
  rewrite (walk_inner th w _ _ _ _ _ _ Hpar).
  assert (getattr th (VObj i) (List.last a "") w = (Ok v, w)) as Hg.
  { unfold getattr. rewrite Hi, decide_False by done. by rewrite Hattr. }
  unfold bind at 1. rewrite Hg. unfold ret at 1. cbn [fst snd].
  unfold bind at 1. unfold getattr at 1. rewrite Hi, decide_False by done.
  destruct (attrs ob !! scoped_name (List.last a "")) as [sv0|] eqn:Es; [|done].
  destruct sv0 as [| | | | |s]; try done.
  by destruct (Hnew s).
Qed.

Lemma resolvable_slots w w' ctx a :
  slots w' = slots w → resolvable w' ctx a = resolvable w ctx a.
Proof.
  unfold slots, resolvable. intros [= -> Hd].
  destruct (plain_follow _ _ _) as [[| | | |i|]|]; try done.
  destruct (objs w !! i) as [ob|]; [|done].
  destruct (attrs ob !! scoped_name (List.last a "")) as [[| | | | |s]|]; try done.
  do 2 f_equal. apply bool_decide_ext. by rewrite <- !elem_of_dom, Hd.
Qed.

(** [resolve] succeeds on a path that can be handled, and what it does
    keeps every declared path in that condition. *)
Lemma resolve_resolvable th w ctx a :
  descriptors_ok w = true → a ∈ _attributes → resolvable w ctx a = true →
  ∃ s w1, resolve th ctx a w = (Ok (VScoped s), w1) ∧
          is_Some (svs w1 !! s) ∧
          descriptors_ok w1 = true ∧
          (∀ a', a' ∈ _attributes → resolvable w ctx a' = true →
                 resolvable w1 ctx a' = true).
Proof.
  intros Hd Ha Hres.
  destruct (resolvable_cases w ctx a Hres) as [[s Hw]|Hun].
  { exists s, w. split; [by apply resolve_wrapped|].
    split; [by destruct Hw as (? & ? & ? & ? & ? & ? & ? & ?)|]. done. }
  destruct Hun as (i & ob & Hpar & Hi & Hnd & Hnew & Hp & Hattr).
  destruct Hattr as [v Hattr].
  pose proof (resolve_unwrapped_eq th w ctx a i ob v Ha Hpar Hi Hnd Hnew Hp Hattr) as Hinst.
  destruct (install_run th w i ob (List.last a "") v Hi Hnd Hp) as [w1 Hw1];
    [by eexists|].
  assert (resolve th ctx a w = (Ok (VScoped (fresh (dom (svs w)))), w1)) as Hr
    by (by rewrite Hinst).
  destruct (resolve_establishes th w ctx a _ w1 Hd Ha Hr)
    as (s' & [= <-] & Hd1 & Hw1' & Hpres & Hlive).
  destruct (attribute_split a Ha) as (Hsplit & Hleaf & Hinner).
  apply (install_spec th w i ob) in Hw1 as (_ & _ & _ & Ho & Hs); [|done..].
  set (s0 := fresh (dom (svs w))) in *.
  assert (is_Some (svs w1 !! s0)) as Hlive0
    by (rewrite Hs, lookup_insert_eq; by eexists).
  exists s0, w1. split; [done|]. split; [done|]. split; [done|].
  intros a' Ha' Hres'.
  destruct (resolvable_cases w ctx a' Hres') as [[s' Hw']|Hun'].
  { apply (resolvable_wrapped _ _ _ s'). by apply Hpres. }
  destruct Hun' as (i' & ob' & Hpar' & Hi' & Hnd' & Hnew' & Hp' & Hattr').
  clear Hattr.
  destruct (attribute_split a' Ha') as (_ & Hleaf' & Hinner').
  assert (plain_follow (objs w1) (removelast a') (VObj ctx) = Some (VObj i')) as Hpar1.
  { rewrite Ho. by rewrite plain_follow_patched. }
  destruct (decide (i' = i)) as [->|Hne].
  - assert (ob' = ob) as -> by congruence.
    destruct (decide (List.last a' "" = List.last a "")) as [Heq|Hneq].
    + (* the same attribute of the same parent: wrapped now *)
      apply (resolvable_wrapped _ _ _ s0).
      destruct (Hw1' Hlive0) as (i2 & ob2 & Hpar2 & Hi2 & Hr2 & Hnd2 & Hs2 & Hl2).
      assert (plain_follow (objs w1) (removelast a) (VObj ctx) = Some (VObj i)) as Hp1.
      { rewrite Ho. by rewrite plain_follow_patched. }
      assert (i2 = i) as -> by congruence.
      exists i, ob2. rewrite Heq. by repeat (split; [done|]).
    + eapply (resolvable_unwrapped w1 ctx a' i); [done|..].
      * rewrite Ho. apply lookup_insert_eq.
      * simpl. rewrite elem_of_union, elem_of_singleton. intros [Hq|Hq]; [|done].
        by apply (leaf_not_scoped (List.last a "") (List.last a' "")).
      * intros s'. simpl. rewrite lookup_delete_ne.
        -- rewrite lookup_insert_ne; [apply Hnew'|].
           intros Hq%scoped_name_inj. by apply Hneq.
        -- intros Hq. by apply (leaf_not_scoped (List.last a "") (List.last a' "")).
      * simpl. rewrite elem_of_union, elem_of_singleton. intros [Hq|Hq]; [|done].
        by apply Hneq.
      * simpl. rewrite lookup_delete_ne by (intros Hq; by apply Hneq).
        rewrite lookup_insert_ne; [done|].
        intros Hq. by apply (leaf_not_scoped (List.last a' "") (List.last a "")).
  - eapply (resolvable_unwrapped w1 ctx a' i' ob'); try done.
    rewrite Ho. by rewrite lookup_insert_ne.
Qed.

Lemma dispatchable_spec w :
  dispatchable w = true ↔
  descriptors_ok w = true ∧
  ∀ a, a ∈ _attributes → resolvable w (context w) a = true.
Proof.
  unfold dispatchable. rewrite andb_true_iff, forallb_forall.
  split; intros [Hd H]; (split; [done|]); intros a Ha; apply H;
    by apply list_elem_of_In.
Qed.

Lemma fork_all_resolvable th ctx paths : ∀ w,
  descriptors_ok w = true →
  (∀ a, a ∈ paths → a ∈ _attributes) →
  (∀ a, a ∈ _attributes → resolvable w ctx a = true) →
  ∃ forks w',
    fork_all th ctx paths w = (Ok forks, w') ∧
    descriptors_ok w' = true ∧
    (∀ a, a ∈ _attributes → resolvable w' ctx a = true).
Proof.
  induction paths as [|a rest IH]; intros w Hd Hsub Hres.
  { by exists [], w. }
  destruct (resolve_resolvable th w ctx a Hd) as (s & w1 & Hr & [sv Hlive] & Hd1 & Hpres).
  { apply Hsub, list_elem_of_here. }
  { apply Hres, Hsub, list_elem_of_here. }
  simpl. unfold bind at 1. rewrite Hr.
  unfold bind at 1. unfold sv_fork. rewrite Hlive.
  set (w2 := set_svs _ w1).
  assert (slots w2 = slots w1) as Hsl by (apply slots_sv_update; by eexists).
  destruct (IH w2) as (cs & w' & Hrest & Hd' & Hres').
  - by rewrite (descriptors_ok_objs w1 w2).
  - intros a' Ha'. by apply Hsub, list_elem_of_further.
  - intros a' Ha'. rewrite (resolvable_slots w1 w2) by done. apply Hpres; [done|].
    by apply Hres.
  - exists (Some (ScopedValue.fork sv).1 :: cs), w'.
    unfold bind at 1. by rewrite Hrest.
Qed.

(** A dispatch on a context that can be forked returns the counter as
    the handle and leaves the context in that condition. *)
Lemma async_run_dispatchable th kw w :
  dispatchable w = true →
  ∃ w', async_run th kw w = (Ok (_last_thread_handle w), w') ∧
        dispatchable w' = true ∧
        _last_thread_handle w' = (_last_thread_handle w + 1)%Z.
Proof.
  intros [Hd Hres]%dispatchable_spec.
  destruct (fork_all_resolvable th (context w) _attributes w Hd) as
    (forks & w0 & Hf & Hd0 & Hres0); [done|done|].
  assert (context w0 = context w) as Hc.
  { pose proof (keeps_fork_all context) as Hk.
    specialize (Hk ltac:(frame) ltac:(frame) ltac:(frame) th (context w) _attributes w).
    by rewrite Hf in Hk. }
  assert (_last_thread_handle w0 = _last_thread_handle w) as Hh.
  { pose proof (keeps_fork_all _last_thread_handle) as Hk.
    specialize (Hk ltac:(frame) ltac:(frame) ltac:(frame) th (context w) _attributes w).
    by rewrite Hf in Hk. }
  unfold async_run. unfold bind at 1. rewrite init_eq, Hf.
  unfold submit, register, gets, modify, ret, bind. simpl.
  eexists. split; [by rewrite Hh|]. split; [|simpl; by rewrite Hh].
  apply dispatchable_spec. split.
  - by rewrite <- Hd0.
  - intros a Ha. simpl. rewrite Hc.
    rewrite <- (Hres0 a Ha). by apply resolvable_slots.
Qed.

Lemma perform_dispatches ds : ∀ w,
  dispatchable w = true →
  (perform (dispatches ds) w).1 = seqZ (_last_thread_handle w) (Z.of_nat (length ds)) ∧
  dispatchable (perform (dispatches ds) w).2 = true.
Proof.
  induction ds as [|[th kw] ds IH]; intros w Hw; [done|].
  destruct (async_run_dispatchable th kw w Hw) as (w1 & Hr & Hw1 & Hh).
  unfold dispatches. cbn [map perform fst snd]. rewrite Hr.
  destruct (IH w1 Hw1) as [IH1 IH2]. unfold dispatches in IH1, IH2.
  destruct (perform (map _ ds) w1) as [hs w2]. simpl in IH1, IH2. simpl.
  split; [|done]. rewrite IH1, Hh.
  replace (Z.of_nat (S (length ds))) with (Z.succ (Z.of_nat (length ds))) by lia.
  rewrite (seqZ_cons (_last_thread_handle w)) by lia. f_equal. f_equal; lia.
Qed.

(** C4. Whatever calls of the library are made, in whatever order and
    from whatever threads (dispatches, retrievals, bulk retrievals,
    shutdown drains, with the pool working in between), the handles that
    the dispatches return are consecutive integers starting at the
    counter: strictly increasing, pairwise distinct, and below the
    counter that the next dispatch will use, so none is ever handed out
    again.  And the dispatches do return handles: on a context whose
    declared attributes all exist (wrapped already or not), [N]
    dispatches from any threads and of any keywords return exactly the
    [N] handles from the counter on, and leave the context fit for the
    next dispatch. *)
Theorem handles_strictly_increasing (acts : list action) (w : world) :
  let hs := (perform acts w).1 in
  hs = seqZ (_last_thread_handle w) (Z.of_nat (length hs)) ∧
  StronglySorted Z.lt hs ∧
  NoDup hs ∧
  Forall (λ h, (_last_thread_handle w ≤ h < _last_thread_handle (perform acts w).2)%Z) hs ∧
  (∀ ds : list (thread * keyword),
     dispatchable w = true →
     (perform (dispatches ds) w).1
       = seqZ (_last_thread_handle w) (Z.of_nat (length ds)) ∧
     length (perform (dispatches ds) w).1 = length ds ∧
     dispatchable (perform (dispatches ds) w).2 = true).
Proof.
  intros hs. destruct (perform_handles acts w) as [H1 H2]. fold hs in H1, H2.
  split; [done|]. revert H1 H2. generalize (length hs). intros n -> H2.
  split; [apply seqZ_sorted|]. split; [apply NoDup_seqZ|]. split.
  - apply Forall_forall. intros h Hh. apply elem_of_seqZ in Hh. lia.
  - intros ds Hw. destruct (perform_dispatches ds w Hw) as [Hp Hd].
    split; [done|]. split; [|done]. rewrite Hp, length_seqZ. lia.
Qed.

End dispatch.

(** * The theorems at work on the small context *)

Section examples.
Import AsyncLibrary.


Lemma run_activates_once_kills_once_witness :
  let w := run_workers [WStart 0] (Demo.dispatch [Demo.log_message] Demo.library) in
  let r := _run 1 0 (run_keyword 1 Demo.log_message) w in
  scope_ok w 0 = true ∧
  calls r.2 = [CallActivate 0 1; CallKill 0 1] ∧
  kills 0 (calls r.2) = 1 ∧
  r.1 = Ok (VStr "PASS").
Proof.
  intros w r.
  assert (scope_ok w 0 = true) as Hok by by vm_compute.
  destruct (run_activates_once_kills_once 1 0 (run_keyword 1 Demo.log_message) w)
    as (_ & _ & Hlog & _ & Hkills & _).
  - exact Hok.
  - by vm_compute.
  - by vm_compute.
  - split; [exact Hok|]. split; [exact Hlog|]. split; [exact Hkills|]. by vm_compute.
Defined.


(** Three items, all run to their end, the second one failing:
    [async_get_all] raises that item's error.  With the third item still
    running and no timeout, the same call is still waiting and reports
    nothing, although the failed item has already completed. *)
Lemma get_all_propagates_first_failure_witness :
  let w := Demo.three_dispatched in
  forallb (completed (at_wait Demo.all_three w)) (registered w) = true ∧
  (async_get_all id (Some 1) Demo.all_three w).1 = Raise (KeywordError "boom") ∧
  failure (at_wait Demo.two_of_three w) 1 = Some (KeywordError "boom") ∧
  (async_get_all id None Demo.two_of_three w).1 = Blocked.
Proof.
  intros w.
  assert (forallb (completed (at_wait Demo.all_three w)) (registered w) = true)
    as Hc by by vm_compute.
  destruct (get_all_propagates_first_failure id (Some 1) Demo.all_three w)
    as (Hr & _ & _ & _ & _ & Hwait).
  - intros l. reflexivity.
  - exact Hc.
  - split; [exact Hc|]. split; [rewrite Hr; by vm_compute|].
    split; [by vm_compute|].
    rewrite (Hwait Demo.two_of_three w); [reflexivity|by vm_compute].
Defined.

(** Three dispatches from two threads on the library of the example
    return the handles 0, 1 and 2; a fourth one, made after the first
    item was run and retrieved, returns 3 and not the retrieved 0. *)
Lemma handles_strictly_increasing_witness :
  let w := Demo.library in
  let ds := [(0, Demo.log_message); (1, Demo.fail_keyword); (0, Demo.log_message)] in
  let acts := dispatches ds ++
              [AWorkers [WStart 0; WFinish 0 1]; AGet 0 None [];
               ARun 1 Demo.log_message] in
  dispatchable w = true ∧
  (perform (dispatches ds) w).1 = [0; 1; 2]%Z ∧
  (perform acts w).1 = [0; 1; 2; 3]%Z ∧
  NoDup (perform acts w).1.
Proof.
  intros w ds acts.
  assert (dispatchable w = true) as Hw by by vm_compute.
  assert (length (perform acts w).1 = 4) as Hlen by by vm_compute.
  pose proof (handles_strictly_increasing acts w) as H. cbv zeta in H.
  destruct H as (Hacts & _ & Hnd & _ & H).
  destruct (H ds Hw) as (Hp & _ & _).
  split; [exact Hw|]. split; [rewrite Hp; by vm_compute|].
  split; [rewrite Hacts, Hlen; by vm_compute|exact Hnd].
Defined.

(** The third of three items is still running when the timeout of
    [async_get] on its handle expires. *)
Lemma get_timeout_discards_handle_witness :
  let w := Demo.three_dispatched in
  let r := async_get 2 (Some 1) Demo.two_of_three w in
  _future w !! 2%Z = Some 2 ∧
  r.1 = Raise (TimeoutError "") ∧
  _future r.2 !! 2%Z = None ∧
  (async_get 2 None [WFinish 2 3] r.2).1 = Raise (unknown_handle 2).
Proof.
  intros w r.
  assert (_future w !! 2%Z = Some 2) as Hh by by vm_compute.
  destruct (get_timeout_discards_handle 2 2 1 Demo.two_of_three w)
    as (Hr & _ & Hgone & Hlater).
  - exact Hh.
  - by vm_compute.
  - split; [exact Hh|]. split; [exact Hr|]. split; [exact Hgone|]. apply Hlater.
Defined.

(** The first [ScopedContext] wraps the five attributes; the second one
    changes no object and creates no [ScopedValue]. *)
Lemma init_reuses_installed_slots_witness :
  let w := Demo.library in
  let w1 := (ScopedContext.__init__ 0 w).2 in
  let w2 := (ScopedContext.__init__ 1 w1).2 in
  descriptors_ok w = true ∧
  (ScopedContext.__init__ 0 w).1 = Ok 0 ∧
  (patches <$> objs w1) = {[ 0 := 3; 1 := 0; 2 := 1; 3 := 1 ]} ∧
  objs w2 = objs w1 ∧
  dom (svs w2) = dom (svs w1).
Proof.
  intros w w1 w2.
  assert (descriptors_ok w = true) as Hd by by vm_compute.
  assert ((ScopedContext.__init__ 0 w).1 = Ok 0) as Hi by by vm_compute.
  destruct (init_reuses_installed_slots 0 1 w 0 Hd Hi) as (_ & _ & Ho & Hs).
  split; [exact Hd|]. split; [exact Hi|].
  split; [by vm_compute|]. split; [exact Ho|exact Hs].
Defined.

(** Two items that both succeed: [async_get_all] returns [None] and
    their ["PASS"] results are gone with the registry. *)
Lemma get_all_returns_none_witness :
  let w := Demo.two_dispatched in
  let r := async_get_all id None Demo.both w in
  forallb (succeeded (at_wait Demo.both w)) (registered w) = true ∧
  r.1 = Ok VNone ∧
  _future r.2 = ∅ ∧
  (async_get 0 None [] r.2).1 = Raise (unknown_handle 0).
Proof.
  intros w r.
  assert (forallb (succeeded (at_wait Demo.both w)) (registered w) = true)
    as Hs by by vm_compute.
  destruct (get_all_returns_none id None Demo.both w) as (Hr & Hempty & Hlater).
  - intros l. reflexivity.
  - exact Hs.
  - split; [exact Hs|]. split; [exact Hr|]. split; [exact Hempty|]. apply Hlater.
Defined.

End examples.

(** * The logging guard *)

Section guard.
Context (LOGGING_THREADS : list string) (getName : thread → string).

Lemma guard_iter_some n wr :
  ∃ wr', Nat.iter n (guard_writer LOGGING_THREADS getName) (Some wr) = Some wr'.
Proof.
  induction n as [|n [wr' IH]]; [by eexists|]. simpl. rewrite IH. by eexists.
Qed.

(** X1. However many library instances have wrapped the writer (one per
    suite, each wrapping what the previous one left), each of its three
    methods calls the original from a logging thread and, from any other
    thread, returns [None] without touching the state. *)
Theorem writer_guard_nested (n : nat) (wr : xml_writer) (th : thread)
    (args : list pyval) (w : world) :
  ∃ wr', Nat.iter (S n) (guard_writer LOGGING_THREADS getName) (Some wr) = Some wr' ∧
    start wr' th args w
      = (if decide (getName th ∈ LOGGING_THREADS) then start wr th args w
         else (Ok VNone, w)) ∧
    end_ wr' th args w
      = (if decide (getName th ∈ LOGGING_THREADS) then end_ wr th args w
         else (Ok VNone, w)) ∧
    element wr' th args w
      = (if decide (getName th ∈ LOGGING_THREADS) then element wr th args w
         else (Ok VNone, w)).
Proof.
  induction n as [|n (wr' & Hwr' & Hs & He & Hel)].
  - eexists. split; [done|]. simpl. unfold only_run_on_robot_thread, ret.
    by case_decide.
  - exists (XmlWriter
              (only_run_on_robot_thread LOGGING_THREADS getName (start wr'))
              (only_run_on_robot_thread LOGGING_THREADS getName (end_ wr'))
              (only_run_on_robot_thread LOGGING_THREADS getName (element wr'))).
    split; [by rewrite Nat.iter_succ, Hwr'|]. cbn [start end_ element].
    unfold only_run_on_robot_thread. case_decide; [|done].
    by rewrite Hs, He, Hel.
Qed.

End guard.

(** * Releasing a scope twice, draining an empty registry *)

Section again.
Import AsyncLibrary.

Local Opaque ScopedContext._attributes.

Lemma world_eta w :
  World (objs w) (svs w) (scopes w) (pool w) (_future w)
        (_last_thread_handle w) (context w) (calls w) = w.
Proof. by destruct w. Qed.

Lemma svs_log_call c w : svs (log_call c w) = svs w.
Proof. done. Qed.

Lemma zip_replicate_none (l : list (list string)) n :
  Forall (λ ac : list string * option token, ac.2 = None)
         (zip l (replicate n (None : option token))).
Proof.
  revert n. induction l as [|a l IH]; intros [|n]; simpl; [constructor..|].
  constructor; [done|apply IH].
Qed.

Local Abbreviation release th s ctx :=
  (λ ac : list string * option token,
     match ac.2 with
     | Some c =>
         let! scope := ScopedContext.slot th ctx ac.1 in
         sv_kill scope c
     | None => ret tt
     end ;;;
     ScopedContext.append_fork s None).

Lemma release_none th s ctx ac acc w :
  ac.2 = None →
  scopes w !! s = Some (ScopedCtx ctx acc) →
  release th s ctx ac w
    = (Ok tt, set_scopes <[s := ScopedCtx ctx (acc ++ [None])]> w).
Proof.
  intros Hac Hs. unfold bind, ret, ScopedContext.append_fork, modify.
  rewrite Hac. unfold set_scopes. by rewrite Hs.
Qed.

Lemma kill_loop_none th s ctx (l : list (list string * option token)) : ∀ acc w,
  Forall (λ ac, ac.2 = None) l →
  scopes w !! s = Some (ScopedCtx ctx acc) →
  for_each l (release th s ctx) w
    = (Ok tt, set_scopes <[s := ScopedCtx ctx (acc ++ replicate (length l) None)]> w).
Proof.
  induction l as [|ac l IH]; intros acc w Hl Hs.
  { simpl. rewrite app_nil_r. unfold ret. f_equal.
    rewrite <- (world_eta w) at 1. unfold set_scopes. f_equal.
    by rewrite insert_id. }
  apply Forall_cons in Hl as [Hac Hl].
  change (for_each (ac :: l) (release th s ctx) w)
    with (bind (release th s ctx ac) (λ _, for_each l (release th s ctx)) w).
  unfold bind at 1. rewrite (release_none th s ctx ac acc w Hac Hs).
  rewrite (IH (acc ++ [None])); [|done|apply lookup_insert_eq].
  f_equal. unfold set_scopes. simpl. f_equal.
  rewrite insert_insert_eq. by rewrite <- app_assoc.
Qed.

(** X2. [kill] is safe to call again.  After a first [kill] of a scope,
    a second one (from any thread) succeeds, makes no call on any
    [ScopedValue] and changes nothing: objects, scoped values, scopes,
    futures and registry are as the first call left them; only the call
    itself is logged. *)
Theorem kill_twice (th th' : thread) (s : nat) (w : world) :
  scope_ok w s = true →
  let w1 := (ScopedContext.kill th s w).2 in
  let r := ScopedContext.kill th' s w1 in
  (ScopedContext.kill th s w).1 = Ok tt ∧
  r.1 = Ok tt ∧
  r.2 = log_call (CallKill s th') w1.
Proof.
  intros Hok w1 r. pose proof Hok as Hok'. unfold scope_ok in Hok'.
  destruct (scopes w !! s) as [sc|] eqn:E; [|done].
  destruct (kill_ok th s w sc E Hok') as (Hr & Hs & _).
  fold w1 in Hs. split; [done|].
  assert (ScopedContext.kill th' s w1 = (Ok tt, log_call (CallKill s th') w1)) as Hk;
    [|subst r; by rewrite Hk].
  clearbody w1. clear r.
  unfold ScopedContext.kill. unfold bind at 1. unfold modify at 1.
  unfold bind at 1. unfold ScopedContext.self_. cbn [scopes log_call]. rewrite Hs.
  unfold bind at 1. unfold modify at 1. cbn [_context _forks].
  set (n := length (zip ScopedContext._attributes (_forks sc))).
  set (w2 := set_scopes _ (log_call _ w1)).
  rewrite (kill_loop_none th' s (_context sc)
             (zip ScopedContext._attributes (replicate n None)) [] w2);
    [|apply zip_replicate_none|unfold w2; simpl; apply lookup_insert_eq].
  f_equal. cbn [app].
  assert (length (zip ScopedContext._attributes (replicate n (None : option token))) = n)
    as ->.
  { rewrite length_zip_with, length_replicate. unfold n.
    rewrite length_zip_with. lia. }
  unfold w2, set_scopes, log_call. simpl. f_equal.
  rewrite insert_insert_eq. by apply insert_id.
Qed.

Lemma kill_twice_witness :
  let w := Demo.dispatch [Demo.log_message] Demo.library in
  scope_ok w 0 = true ∧
  svs (ScopedContext.kill 1 0 (ScopedContext.kill 0 0 w).2).2
    = svs (ScopedContext.kill 0 0 w).2 ∧
  (ScopedContext.kill 1 0 (ScopedContext.kill 0 0 w).2).1 = Ok tt.
Proof.
  intros w. assert (scope_ok w 0 = true) as Hok by by vm_compute.
  destruct (kill_twice 0 1 0 w Hok) as (_ & Hr & Hw).
  split; [exact Hok|]. split; [|exact Hr].
  rewrite Hw. apply svs_log_call.
Defined.

Lemma wait_all_empty th evs w :
  _future w = ∅ → _wait_all th evs w = (Ok VNone, run_workers evs w).
Proof.
  intros He. unfold _wait_all, drain_registry, bind, gets, values, ret, modify.
  rewrite He, map_to_list_empty. simpl.
  assert (set_future (λ _, ∅) w = w) as ->.
  { rewrite <- (world_eta w) at 2. unfold set_future. by rewrite He. }
  unfold wait. simpl. by rewrite decide_True by set_solver.
Qed.

End again.

(** * From dispatch to retrieval *)

Section roundtrip.
Import ScopedContext AsyncLibrary.

Local Ltac frame := first [done | by intros].
Local Opaque _attributes.

Lemma wrapped_installed w ctx a s :
  wrapped w ctx a s → installed_slot w ctx a = Some s.
Proof.
  intros (i & ob & Hpar & Hi & _ & Hnd & Hs & Hlive).
  unfold installed_slot, slot_path. rewrite plain_follow_app, Hpar.
  simpl. rewrite Hi, decide_False by done. rewrite Hs.
  by rewrite decide_True.
Qed.

Lemma scope_ok_same w w' s :
  slots w' = slots w → scopes w' = scopes w → scope_ok w' s = scope_ok w s.
Proof.
  intros Hsl Hsc. unfold scope_ok. rewrite Hsc.
  destruct (scopes w !! s); [|done]. by apply context_installed_slots.
Qed.

Lemma scoped_write_slots w w' x :
  slots w' = slots w → scoped_write w' x = scoped_write w x.
Proof.
  unfold slots, scoped_write. intros [= -> Hd].
  destruct x.1.1 as [| | | |i|]; try done.
  destruct (objs w !! i) as [ob|]; [|done].
  destruct (attrs ob !! scoped_name x.1.2) as [[| | | | |s]|]; try done.
  f_equal. apply bool_decide_ext. by rewrite <- !elem_of_dom, Hd.
Qed.

(** Assignments through installed redirects change the states of
    [ScopedValue]s and nothing else. *)
Lemma sets_scoped th (l : list (pyval * string * pyval)) : ∀ w,
  forallb (scoped_write w) l = true →
  ∃ m, for_each l (λ s, setattr th s.1.1 s.1.2 s.2) w
         = (Ok tt, set_svs (λ _, m) w) ∧
       dom m = dom (svs w).
Proof.
  induction l as [|x l IH]; intros w H.
  { exists (svs w). split; [|done]. simpl. unfold ret. f_equal. by destruct w. }
  simpl in H. apply andb_true_iff in H as [Hx Hl].
  unfold scoped_write in Hx.
  destruct x as [[o name] v]. simpl in Hx.
  destruct o as [| | | |i|]; try done.
  destruct (objs w !! i) as [ob|] eqn:Hi; [|done].
  apply andb_true_iff in Hx as [Hd Hs]. apply bool_decide_eq_true_1 in Hd.
  destruct (attrs ob !! scoped_name name) as [[| | | | |s]|] eqn:Es; try done.
  apply bool_decide_eq_true_1 in Hs. destruct Hs as [sv Hsv].
  change (for_each ((VObj i, name, v) :: l) (λ s, setattr th s.1.1 s.1.2 s.2) w)
    with (bind (setattr th (VObj i) name v)
               (λ _, for_each l (λ s, setattr th s.1.1 s.1.2 s.2)) w).
  assert (∃ sv', setattr th (VObj i) name v w = (Ok tt, set_svs <[s := sv']> w))
    as [sv' Hset].
  { unfold setattr. rewrite Hi, decide_True by done.
    unfold descriptor_set. rewrite Es, Hsv. by eexists. }
  unfold bind at 1. rewrite Hset.
  set (w1 := set_svs _ w).
  assert (slots w1 = slots w) as Hsl by (apply slots_sv_update; by eexists).
  destruct (IH w1) as (m & Hm & Hdom).
  { apply forallb_forall. intros y Hy. rewrite (scoped_write_slots w w1) by done.
    rewrite forallb_forall in Hl. by apply Hl. }
  exists m. rewrite Hm. split; [done|].
  rewrite Hdom. unfold slots in Hsl. by injection Hsl.
Qed.

Lemma run_keyword_scoped th kw w :
  forallb (scoped_write w) (kw_sets kw) = true →
  ∃ m, run_keyword th kw w = (outcome (kw_result kw), set_svs (λ _, m) w) ∧
       dom m = dom (svs w).
Proof.
  intros H. destruct (sets_scoped th _ w H) as (m & Hm & Hd).
  exists m. split; [|done].
  unfold run_keyword, bind. rewrite Hm. by destruct (kw_result kw).
Qed.

(** The state that a dispatch on a context that can be forked leaves. *)
Lemma async_run_shape th kw w :
  dispatchable w = true →
  ∃ forks w0,
    async_run th kw w =
      (Ok (_last_thread_handle w0),
       set_future <[_last_thread_handle w0 := fresh (dom (pool w0))]>
         (set_last_thread_handle (λ n, n + 1)%Z
           (set_pool <[fresh (dom (pool w0))
                         := Future PENDING (fresh (dom (scopes w0))) kw]>
             (set_scopes <[fresh (dom (scopes w0))
                             := ScopedCtx (context w) forks]> w0)))) ∧
    scopes w0 = scopes w ∧ pool w0 = pool w ∧ _future w0 = _future w ∧
    _last_thread_handle w0 = _last_thread_handle w ∧
    calls w0 = calls w ∧
    context_installed w0 (context w) = true.
Proof.
  intros [Hd Hres]%dispatchable_spec.
  destruct (fork_all_resolvable th (context w) _attributes w Hd) as
    (forks & w0 & Hf & Hd0 & Hres0); [done|done|].
  destruct (fork_all_establishes th (context w) _attributes w forks w0 Hd)
    as (_ & Hw0 & _); [done|done|].
  exists forks, w0. split.
  { unfold async_run. unfold bind at 1. by rewrite init_eq, Hf. }
  assert (∀ {A} (proj : world → A),
            (∀ s sv w, is_Some (svs w !! s) → proj (set_svs <[s := sv]> w) = proj w) →
            (∀ f w, proj (set_objs f w) = proj w) →
            (∀ f w, proj (set_svs f w) = proj w) →
            proj w0 = proj w) as Hkeep.
  { intros A proj H1 H2 H3.
    pose proof (keeps_fork_all proj H1 H2 H3 th (context w) _attributes w) as Hk.
    by rewrite Hf in Hk. }
  repeat (split; [by apply Hkeep|]).
  unfold context_installed. apply forallb_forall. intros a Ha%list_elem_of_In.
  destruct (Hw0 a Ha) as [s Hs]. rewrite (wrapped_installed _ _ _ _ Hs).
  apply bool_decide_eq_true_2. by eexists.
Qed.

(** A worker that completes a running item whose keyword assigns through
    installed redirects only. *)
Lemma worker_finishes wt f s kw w :
  pool w !! f = Some (Future RUNNING s kw) →
  scope_ok w s = true →
  forallb (scoped_write w) (kw_sets kw) = true →
  let w' := worker_step w (WFinish f wt) in
  state_of f w' = Some (FINISHED (kw_result kw)) ∧
  (∀ f', f' ≠ f → pool w' !! f' = pool w !! f') ∧
  _future w' = _future w ∧
  calls w' = calls w ++ [CallActivate s wt; CallKill s wt] ∧
  killed w' s = true ∧
  slots w' = slots w.
Proof.
  intros Hpool Hok Hsets w'. subst w'.
  unfold worker_step. rewrite Hpool. cbn [f_state _scope f_fn].
  pose proof (activate_ok wt s w Hok) as Ha.
  set (wa := (activate wt s w).2) in *.
  assert (slots wa = slots w) as Hsla by apply keeps_slots_activate.
  assert (keeps scopes (activate wt s)) as Hsca by (apply keeps_activate; frame).
  assert (keeps pool (activate wt s)) as Hpa by (apply keeps_activate; frame).
  assert (keeps _future (activate wt s)) as Hfa by (apply keeps_activate; frame).
  specialize (Hsca w). specialize (Hpa w). specialize (Hfa w).
  fold wa in Hsca, Hpa, Hfa.
  destruct (run_keyword_scoped wt kw wa) as (m & Hrk & Hdom).
  { apply forallb_forall. intros y Hy. rewrite (scoped_write_slots w wa) by done.
    rewrite forallb_forall in Hsets. by apply Hsets. }
  set (wk := set_svs (λ _, m) wa) in *.
  assert (slots wk = slots w) as Hslk.
  { rewrite <- Hsla. unfold slots. simpl. by rewrite Hdom. }
  unfold scope_ok in Hok. destruct (scopes w !! s) as [sc|] eqn:Esc; [|done].
  destruct (kill_ok wt s wk sc) as (Hk1 & Hk2 & _).
  { unfold wk. simpl. by rewrite Hsca. }
  { by rewrite (context_installed_slots w wk). }
  assert (keeps pool (kill wt s)) as Hpk by (apply keeps_kill; frame).
  assert (keeps _future (kill wt s)) as Hfk by (apply keeps_kill; frame).
  specialize (Hpk wk). specialize (Hfk wk).
  pose proof (keeps_slots_kill wt s wk) as Hslz.
  pose proof (kill_calls wt s wk) as Hcz.
  rewrite run_eq; [|done|fold wa; rewrite Hrk; by destruct (kw_result kw)].
  fold wa. rewrite Hrk. cbn [fst snd]. fold wk. rewrite Hk1.
  set (wz := (kill wt s wk).2) in *.
  assert (∀ st, state_of f (set_state f st wz) = Some st ∧
                (∀ f', f' ≠ f → pool (set_state f st wz) !! f' = pool w !! f') ∧
                _future (set_state f st wz) = _future w ∧
                calls (set_state f st wz)
                  = calls w ++ [CallActivate s wt; CallKill s wt] ∧
                killed (set_state f st wz) s = true ∧
                slots (set_state f st wz) = slots w) as Hfin.
  { intros st.
    assert (pool wz = pool w) as Hpz.
    { rewrite Hpk. unfold wk. simpl. done. }
    split.
    { unfold state_of. rewrite pool_set_state, decide_True by done.
      by rewrite Hpz, Hpool. }
    split.
    { intros f' Hne. rewrite pool_set_state, decide_False by done. by rewrite Hpz. }
    split.
    { change (_future (set_state f st wz)) with (_future wz).
      rewrite Hfk. unfold wk. simpl. done. }
    split.
    { change (calls (set_state f st wz)) with (calls wz).
      rewrite Hcz. unfold wk. simpl. unfold wa. rewrite activate_calls.
      by rewrite <- app_assoc. }
    split.
    { apply (killed_replicate _ s (_context sc)
               (length (zip _attributes (_forks sc)))).
      exact Hk2. }
    change (slots (set_state f st wz)) with (slots wz).
    by rewrite Hslz. }
  destruct (kw_result kw) as [v|e]; apply Hfin.
Qed.

(** X3. Dispatch, run, retrieve.  On a context that can be forked, a
    keyword whose assignments go through the installed redirects is
    dispatched with [async_run]; once a worker has taken the item and run
    it to its end, [async_get] on the returned handle (with or without a
    timeout) delivers what the keyword ended with: its return value, or
    the error it raised.  The item ran between exactly one [activate] and
    one [kill] of its own scope, which holds no fork afterwards, and the
    handle is gone from the registry.  Before any worker has taken the
    item, the same call waits (no timeout) or fails with [TimeoutError]. *)
Theorem dispatch_run_get (th wt : thread) (kw : keyword) (w : world) :
  dispatchable w = true →
  let r := async_run th kw w in
  let f := fresh (dom (pool w)) in
  let s := fresh (dom (scopes w)) in
  let h := _last_thread_handle w in
  forallb (scoped_write r.2) (kw_sets kw) = true →
  r.1 = Ok h ∧
  (∀ timeout,
     let g := async_get h timeout [WStart f; WFinish f wt] r.2 in
     g.1 = outcome (kw_result kw) ∧
     _future g.2 = delete h (_future w) ∧
     calls g.2 = calls w ++ [CallActivate s wt; CallKill s wt] ∧
     killed g.2 s = true) ∧
  (async_get h None [] r.2).1 = Blocked ∧
  (∀ T, (async_get h (Some T) [] r.2).1 = Raise (TimeoutError "")).
Proof.
  intros Hw.
  destruct (async_run_shape th kw w Hw)
    as (forks & w0 & Hrun & Hsc & Hp & Hfu & Hh & Hc & Hinst).
  intros r f s h Hsets. subst r f s h. rewrite Hrun in *. cbn [fst snd] in *.
  rewrite <- Hsc, <- Hp, <- Hh, <- Hfu, <- Hc.
  set (f := fresh (dom (pool w0))) in *.
  set (s := fresh (dom (scopes w0))) in *.
  set (h := _last_thread_handle w0) in *.
  set (w1 := set_future _ _) in *.
  split; [done|].
  set (w2 := set_future (delete h) w1).
  assert (∀ timeout evs,
            async_get h timeout evs w1 = future_result f timeout (run_workers evs w2))
    as Hget.
  { intros timeout evs. unfold async_get. unfold bind at 1. unfold pop.
    assert (_future w1 !! h = Some f) as -> by apply lookup_insert_eq.
    done. }
  assert (pool w2 !! f = Some (Future PENDING s kw)) as Hpend
    by apply lookup_insert_eq.
  split; [|split].
  - intros timeout. rewrite Hget.
    unfold run_workers. cbn [foldl].
    assert (worker_step w2 (WStart f) = set_state f RUNNING w2) as ->.
    { unfold worker_step, state_of. by rewrite Hpend. }
    set (w3 := set_state f RUNNING w2).
    destruct (worker_finishes wt f s kw w3) as (Hst & _ & Hreg & Hcalls & Hk & _).
    + unfold w3. rewrite pool_set_state, decide_True by done. by rewrite Hpend.
    + unfold scope_ok.
      assert (scopes w3 !! s = Some (ScopedCtx (context w) forks)) as ->
        by apply lookup_insert_eq.
      cbn [_context]. by rewrite (context_installed_slots w0 w3).
    + apply forallb_forall. intros y Hy.
      rewrite (scoped_write_slots w1 w3) by done.
      rewrite forallb_forall in Hsets. by apply Hsets.
    + set (w4 := worker_step w3 (WFinish f wt)) in *.
      unfold future_result. rewrite Hst.
      split; [by destruct (kw_result kw)|].
      assert (_future w4 = delete h (_future w0) ∧
              calls w4 = calls w0 ++ [CallActivate s wt; CallKill s wt]) as [H1 H2].
      { rewrite Hreg, Hcalls. split; [|done].
        change (_future w3) with (delete h (<[h := f]> (_future w0))).
        by rewrite delete_insert_eq. }
      by destruct (kw_result kw).
  - rewrite Hget. unfold run_workers. cbn [foldl].
    unfold future_result, state_of. by rewrite Hpend.
  - intros T. rewrite Hget. unfold run_workers. cbn [foldl].
    unfold future_result, state_of. by rewrite Hpend.
Qed.

(** One dispatch of the logging keyword on the library of the example,
    run by worker 1 and retrieved. *)
Lemma dispatch_run_get_witness :
  let w := Demo.library in
  let r := async_run 0 Demo.log_message w in
  let f := fresh (dom (pool w)) in
  let h := _last_thread_handle w in
  dispatchable w = true ∧
  forallb (scoped_write r.2) (kw_sets Demo.log_message) = true ∧
  h = 0%Z ∧
  r.1 = Ok h ∧
  (async_get h None [WStart f; WFinish f 1] r.2).1
    = outcome (kw_result Demo.log_message) ∧
  outcome (kw_result Demo.log_message) = Ok (VStr "PASS").
Proof.
  intros w r f h.
  assert (dispatchable w = true) as Hw by by vm_compute.
  assert (forallb (scoped_write r.2) (kw_sets Demo.log_message) = true) as Hs
    by by vm_compute.
  assert (h = 0%Z) as Hh by by vm_compute.
  pose proof (dispatch_run_get 0 1 Demo.log_message w Hw) as H. cbv zeta in H.
  destruct (H Hs) as (H1 & H2 & _).
  destruct (H2 None) as (Hg & _).
  split; [exact Hw|]. split; [exact Hs|]. split; [exact Hh|].
  split; [exact H1|]. split; [exact Hg|]. reflexivity.
Defined.

End roundtrip.

(** * More on the wrapper, the dispatch and the shutdown *)

Section further.
Import ScopedContext AsyncLibrary.

Local Ltac frame := first [done | by intros].
Local Opaque _attributes.

(** X4. When the activation of the scope fails, the wrapper [_run] ends
    with that error at once: the work item is not run and, the [with]
    block never having been entered, [kill] is not called, so the forks
    of the scope stay unreleased.  The log of calls grows by the one
    [activate]. *)
Theorem run_activation_fails (th : thread) (scope : nat) (fn : M pyval)
    (e : exn) (w : world) :
  (activate th scope w).1 = Raise e →
  _run th scope fn w = (Raise e, (activate th scope w).2) ∧
  calls (_run th scope fn w).2 = calls w ++ [CallActivate scope th] ∧
  kills scope (calls (_run th scope fn w).2) = kills scope (calls w).
Proof.
  intros H. pose proof (activate_calls th scope w) as Hc.
  assert (_run th scope fn w = (Raise e, (activate th scope w).2)) as Hr.
  { unfold _run, with_, __enter__. unfold bind at 1.
    destruct (activate th scope w) as [c w1]. simpl in H. by subst c. }
  rewrite Hr. cbn [snd]. split; [done|]. split; [done|].
  rewrite Hc, kills_app. unfold kills at 2. simpl. lia.
Qed.

Lemma run_activation_fails_witness :
  let w := set_objs (delete 1) (Demo.dispatch [Demo.log_message] Demo.library) in
  (activate 1 0 w).1 = Raise (AttributeError "variables") ∧
  (_run 1 0 (run_keyword 1 Demo.log_message) w).1
    = Raise (AttributeError "variables") ∧
  kills 0 (calls (_run 1 0 (run_keyword 1 Demo.log_message) w).2) = kills 0 (calls w).
Proof.
  intros w.
  assert ((activate 1 0 w).1 = Raise (AttributeError "variables")) as Ha
    by by vm_compute.
  destruct (run_activation_fails 1 0 (run_keyword 1 Demo.log_message) _ w Ha)
    as (Hr & _ & Hk).
  split; [exact Ha|]. split; [|exact Hk]. rewrite Hr. reflexivity.
Defined.

Lemma wait_all_ok_registry th evs w v :
  (_wait_all th evs w).1 = Ok v → _future (_wait_all th evs w).2 = ∅.
Proof.
  intros H. unfold _wait_all in *. unfold bind at 1 in H. unfold bind at 1.
  destruct (drain_registry th w) as [[fs|e|] w1] eqn:E; try done.
  clear H. cbv beta.
  assert (_future w1 = ∅) as Hw1.
  { revert E. unfold drain_registry, bind, gets, values, ret, modify.
    destruct (drain th _ [] w) as [[fs'|e|] w0]; try done.
    by intros [= _ <-]. }
  assert (keeps _future (modify (run_workers evs) ;;; wait fs None ;;; ret VNone))
    as Hk.
  { apply keeps_bind; [|intros _].
    { apply keeps_modify. intros w'. apply run_workers_keeps; frame. }
    apply keeps_bind; [apply keeps_wait|done]. }
  by rewrite Hk.
Qed.

(** X5. Shutting down twice.  When the drain at the end of the suite has
    returned, the registry is empty, and the drain at close finds nothing
    to do: it cancels nothing, kills no scope, waits for nothing and
    returns [None], whatever the pool does meanwhile. *)
Theorem close_after_end_suite (th th' : thread) (evs evs' : list wevent)
    (w : world) :
  (_end_suite th evs w).1 = Ok VNone →
  let w1 := (_end_suite th evs w).2 in
  _future w1 = ∅ ∧
  _close th' evs' w1 = (Ok VNone, run_workers evs' w1) ∧
  _close th' [] w1 = (Ok VNone, w1).
Proof.
  intros H w1. unfold _end_suite in *.
  pose proof (wait_all_ok_registry th evs w VNone H) as He. fold w1 in He.
  split; [done|]. unfold _close. split; by rewrite wait_all_empty.
Qed.

Lemma close_after_end_suite_witness :
  let w := Demo.five_dispatched in
  (_end_suite 0 [] w).1 = Ok VNone ∧
  _future (_end_suite 0 [] w).2 = ∅ ∧
  (_close 0 [] (_end_suite 0 [] w).2).1 = Ok VNone.
Proof.
  intros w.
  assert ((_end_suite 0 [] w).1 = Ok VNone) as H by by vm_compute.
  destruct (close_after_end_suite 0 0 [] [] w H) as (He & _ & Hc).
  split; [exact H|]. split; [exact He|]. rewrite Hc. reflexivity.
Defined.

Lemma fork_all_length th ctx paths : ∀ w forks w',
  fork_all th ctx paths w = (Ok forks, w') → length forks = length paths.
Proof.
  induction paths as [|a rest IH]; intros w forks w' H.
  { by injection H as <- _. }
  simpl in H. unfold bind at 1 in H.
  destruct (resolve th ctx a w) as [[scope|e|] w1]; try done.
  unfold bind at 1 in H.
  destruct (sv_fork scope w1) as [[c|e|] w2]; try done.
  unfold bind at 1 in H.
  destruct (fork_all th ctx rest w2) as [[cs|e|] w3] eqn:E; try done.
  injection H as <- _. simpl. f_equal. by eapply IH.
Qed.

Lemma async_run_eq th kw w :
  async_run th kw w =
    match fork_all th (context w) _attributes w with
    | (Ok forks, w0) =>
        (Ok (_last_thread_handle w0),
         set_future <[_last_thread_handle w0 := fresh (dom (pool w0))]>
           (set_last_thread_handle (λ n, n + 1)%Z
             (set_pool <[fresh (dom (pool w0))
                           := Future PENDING (fresh (dom (scopes w0))) kw]>
               (set_scopes <[fresh (dom (scopes w0))
                               := ScopedCtx (context w) forks]> w0))))
    | (Raise e, w0) => (Raise e, w0)
    | (Blocked, w0) => (Blocked, w0)
    end.
Proof.
  unfold async_run. unfold bind at 1. rewrite init_eq.
  by destruct (fork_all th (context w) _attributes w) as [[forks|e|] w0].
Qed.

(** X6. What a dispatch leaves behind.  A call of [async_run] that
    returns has created one [ScopedContext] with one fork per declared
    attribute path, submitted one pending future that carries this scope
    and the keyword, registered it under the old value of the counter and
    advanced the counter by one.  A call that fails (the context lacks a
    declared attribute) has submitted and registered nothing and leaves
    the counter as it was.  Neither activates or kills any scope. *)
Theorem dispatch_registers_one (th : thread) (kw : keyword) (w : world) :
  let r := async_run th kw w in
  calls r.2 = calls w ∧
  context r.2 = context w ∧
  match r.1 with
  | Ok h =>
      h = _last_thread_handle w ∧
      _last_thread_handle r.2 = (h + 1)%Z ∧
      _future r.2 = <[h := fresh (dom (pool w))]> (_future w) ∧
      pool r.2 = <[fresh (dom (pool w))
                     := Future PENDING (fresh (dom (scopes w))) kw]> (pool w) ∧
      ∃ forks,
        scopes r.2 = <[fresh (dom (scopes w))
                         := ScopedCtx (context w) forks]> (scopes w) ∧
        length forks = length _attributes
  | _ =>
      _last_thread_handle r.2 = _last_thread_handle w ∧
      _future r.2 = _future w ∧
      pool r.2 = pool w ∧
      scopes r.2 = scopes w
  end.
Proof.
  intros r. subst r. rewrite async_run_eq.
  assert (∀ {A} (proj : world → A),
            (∀ s sv w, is_Some (svs w !! s) → proj (set_svs <[s := sv]> w) = proj w) →
            (∀ f w, proj (set_objs f w) = proj w) →
            (∀ f w, proj (set_svs f w) = proj w) →
            proj (fork_all th (context w) _attributes w).2 = proj w) as Hkeep.
  { intros A proj H1 H2 H3. by apply keeps_fork_all. }
  pose proof (Hkeep _ calls ltac:(frame) ltac:(frame) ltac:(frame)) as Hc.
  pose proof (Hkeep _ context ltac:(frame) ltac:(frame) ltac:(frame)) as Hx.
  pose proof (Hkeep _ _last_thread_handle ltac:(frame) ltac:(frame) ltac:(frame)) as Hh.
  pose proof (Hkeep _ _future ltac:(frame) ltac:(frame) ltac:(frame)) as Hf.
  pose proof (Hkeep _ pool ltac:(frame) ltac:(frame) ltac:(frame)) as Hp.
  pose proof (Hkeep _ scopes ltac:(frame) ltac:(frame) ltac:(frame)) as Hs.
  clear Hkeep.
  destruct (fork_all th (context w) _attributes w) as [[forks|e|] w0] eqn:Ef;
    cbn [snd] in Hc, Hx, Hh, Hf, Hp, Hs; [|by simpl..].
  simpl.
  rewrite Hh, Hf, Hp, Hs. repeat (split; [done|]).
  exists forks. split; [done|]. by eapply fork_all_length.
Qed.

(** ** Registered handles stay below the counter *)

Lemma handles_below_spec w :
  handles_below w = true ↔
  ∀ h f, _future w !! h = Some f → (h < _last_thread_handle w)%Z.
Proof.
  unfold handles_below. rewrite forallb_forall. split.
  - intros H h f Hh. apply elem_of_map_to_list, list_elem_of_In, H in Hh.
    by apply bool_decide_eq_true_1 in Hh.
  - intros H [h f] Hh%list_elem_of_In%elem_of_map_to_list.
    apply bool_decide_eq_true_2. by eapply H.
Qed.

Lemma async_run_registry th kw w :
  match (async_run th kw w).1 with
  | Ok h => h = _last_thread_handle w ∧
            _last_thread_handle (async_run th kw w).2 = (h + 1)%Z ∧
            _future (async_run th kw w).2
              = <[h := fresh (dom (pool w))]> (_future w)
  | _ => _last_thread_handle (async_run th kw w).2 = _last_thread_handle w ∧
         _future (async_run th kw w).2 = _future w
  end.
Proof.
  rewrite async_run_eq.
  assert (keeps _last_thread_handle (fork_all th (context w) _attributes)) as Hh
    by (apply keeps_fork_all; frame).
  assert (keeps _future (fork_all th (context w) _attributes)) as Hf
    by (apply keeps_fork_all; frame).
  assert (keeps pool (fork_all th (context w) _attributes)) as Hp
    by (apply keeps_fork_all; frame).
  specialize (Hh w). specialize (Hf w). specialize (Hp w).
  destruct (fork_all th (context w) _attributes w) as [[forks|e|] w0];
    cbn [snd] in Hh, Hf, Hp; [|by simpl..].
  simpl. by rewrite Hh, Hf, Hp.
Qed.

Lemma async_get_all_registry o t evs w : _future (async_get_all o t evs w).2 = ∅.
Proof.
  rewrite async_get_all_eq. unfold bind at 1.
  pose proof (keeps_wait _future (registered w) t (at_wait evs w)) as Hk.
  rewrite at_wait_registry in Hk.
  destruct (wait (registered w) t (at_wait evs w)) as [[r|e|] w1]; [|done..].
  cbn [snd] in Hk. case_decide.
  - assert (keeps _future
              (ret tt ;;;
               for_each (o (elements r.1)) (λ f, future_result f None ;;; ret tt) ;;;
               ret VNone)) as Hk'.
    { apply keeps_bind; [done|intros _]. apply keeps_bind; [|done].
      apply keeps_for_each. intros f.
      apply keeps_bind; [apply keeps_future_result|done]. }
    by rewrite Hk'.
  - done.
Qed.

Lemma drain_registry_keeps th fs : ∀ acc, keeps _future (drain th fs acc).
Proof.
  induction fs as [|f fs IH]; intros acc; [done|].
  simpl. apply keeps_bind; [apply keeps_cancel; frame|intros [|]]; [|apply IH].
  apply keeps_bind; [intros w; by case_match|intros s].
  apply keeps_bind; [apply keeps_kill; frame|intros _]. apply IH.
Qed.

Lemma drain_registry_registry th w :
  match (drain_registry th w).1 with
  | Ok _ => _future (drain_registry th w).2 = ∅
  | _ => _future (drain_registry th w).2 = _future w
  end.
Proof.
  unfold drain_registry, bind, gets, values, ret, modify.
  pose proof (drain_registry_keeps th (map_to_list (_future w)).*2 [] w) as Hd.
  by destruct (drain th (map_to_list (_future w)).*2 [] w) as [[fs|e|] w0].
Qed.

Lemma wait_all_registry th evs w :
  _future (_wait_all th evs w).2 = ∅ ∨
  _future (_wait_all th evs w).2 = _future w.
Proof.
  assert (_wait_all th evs w =
            match drain_registry th w with
            | (Ok fs, w1) =>
                (modify (run_workers evs) ;;; wait fs None ;;; ret VNone) w1
            | (Raise e, w1) => (Raise e, w1)
            | (Blocked, w1) => (Blocked, w1)
            end) as -> by done.
  pose proof (drain_registry_registry th w) as Hd.
  destruct (drain_registry th w) as [[fs|e|] w1]; cbn [fst snd] in Hd.
  - left.
    assert (keeps _future (modify (run_workers evs) ;;; wait fs None ;;; ret VNone))
      as Hk.
    { apply keeps_bind; [|intros _].
      { apply keeps_modify. intros w'. apply run_workers_keeps; frame. }
      apply keeps_bind; [apply keeps_wait|done]. }
    by rewrite Hk.
  - right. exact Hd.
  - right. exact Hd.
Qed.

Lemma perform_below acts : ∀ w,
  handles_below w = true → handles_below (perform acts w).2 = true.
Proof.
  induction acts as [|a acts IH]; intros w Hw; [done|].
  destruct a as [th kw|h t evs|o t evs|th evs|evs]; simpl.
  - pose proof (async_run_registry th kw w) as Hr.
    destruct (async_run th kw w) as [[h|e|] w1]; cbn [fst snd] in Hr.
    + destruct Hr as (-> & Hc & Hf). specialize (IH w1).
      destruct (perform acts w1) as [hs w2]. simpl in *. apply IH.
      apply handles_below_spec. intros h f. rewrite Hf, Hc.
      rewrite handles_below_spec in Hw.
      destruct (decide (h = _last_thread_handle w)) as [->|Hne].
      * intros _. lia.
      * rewrite lookup_insert_ne by done. intros Hh%Hw. lia.
    + destruct Hr as [Hc Hf]. apply IH. apply handles_below_spec.
      rewrite Hc, Hf. by apply handles_below_spec.
    + destruct Hr as [Hc Hf]. apply IH. apply handles_below_spec.
      rewrite Hc, Hf. by apply handles_below_spec.
  - apply IH. apply handles_below_spec. intros h' f.
    rewrite async_get_registry, async_get_counter.
    intros Hh%lookup_delete_Some. destruct Hh as [_ Hh].
    rewrite handles_below_spec in Hw. by eapply Hw.
  - apply IH. apply handles_below_spec. intros h' f.
    by rewrite async_get_all_registry.
  - apply IH. apply handles_below_spec. intros h' f.
    rewrite wait_all_counter.
    destruct (wait_all_registry th evs w) as [-> | ->]; [done|].
    rewrite handles_below_spec in Hw. apply Hw.
  - apply IH. apply handles_below_spec. intros h' f.
    rewrite (run_workers_keeps _future) by frame.
    rewrite (run_workers_keeps _last_thread_handle) by frame.
    rewrite handles_below_spec in Hw. apply Hw.
Qed.

(** X7. A dispatch never replaces an entry of the registry.  Every
    library starts with all registered handles below its counter (there
    are none), and every call keeps it so; hence the handle that a
    dispatch returns, after any history of calls, is not a key of the
    registry, the dispatch adds exactly that entry, and every entry that
    was registered is still there, with its future. *)
Theorem dispatch_never_overwrites (acts : list action) (w : world) :
  handles_below w = true →
  let w' := (perform acts w).2 in
  handles_below w' = true ∧
  (∀ th kw h, (async_run th kw w').1 = Ok h →
     _future w' !! h = None ∧
     _future (async_run th kw w').2 = <[h := fresh (dom (pool w'))]> (_future w') ∧
     ∀ h' f', _future w' !! h' = Some f' →
              _future (async_run th kw w').2 !! h' = Some f') ∧
  (∀ os ctx, handles_below (AsyncLibrary.__init__ os ctx) = true).
Proof.
  intros Hw w'. pose proof (perform_below acts w Hw) as Hw'. fold w' in Hw'.
  split; [done|]. split; [|done].
  intros th kw h Hh. pose proof (async_run_registry th kw w') as Hr.
  rewrite Hh in Hr. destruct Hr as (-> & _ & Hf).
  rewrite handles_below_spec in Hw'.
  assert (_future w' !! _last_thread_handle w' = None) as Hnone.
  { destruct (_future w' !! _last_thread_handle w') as [f|] eqn:E; [|done].
    apply Hw' in E. lia. }
  split; [done|]. split; [done|].
  intros h' f' Hh'. rewrite Hf, lookup_insert_ne; [done|]. congruence.
Qed.

Lemma dispatch_never_overwrites_witness :
  let w := Demo.library in
  let acts := dispatches [(0, Demo.log_message); (1, Demo.fail_keyword)] ++
              [AWorkers [WStart 0; WFinish 0 1]; AGet 0 None []] in
  let w' := (perform acts w).2 in
  handles_below w = true ∧
  (async_run 0 Demo.log_message w').1 = Ok 2%Z ∧
  _future w' !! 2%Z = None ∧
  _future (async_run 0 Demo.log_message w').2 !! 1%Z = Some 1.
Proof.
  intros w acts w'.
  assert (handles_below w = true) as Hw by by vm_compute.
  assert ((async_run 0 Demo.log_message w').1 = Ok 2%Z) as Hr by by vm_compute.
  assert (_future w' !! 1%Z = Some 1) as H1 by by vm_compute.
  destruct (dispatch_never_overwrites acts w Hw) as (_ & H & _).
  destruct (H 0 Demo.log_message 2%Z Hr) as (Hn & _ & Hkeep).
  split; [exact Hw|]. split; [exact Hr|]. split; [exact Hn|].
  exact (Hkeep 1%Z 1 H1).
Defined.

(** ** A cancelled item is never run *)

Lemma run_calls th s' fn w :
  keeps calls fn →
  ∃ l, calls (_run th s' fn w).2 = calls w ++ l ∧
       Forall (λ c, c = CallActivate s' th ∨ c = CallKill s' th) l.
Proof.
  intros Hfn. unfold _run, with_, __enter__, __exit__. unfold bind at 1.
  pose proof (activate_calls th s' w) as Ha.
  destruct (activate th s' w) as [[[]|e|] w1]; cbn [snd] in Ha.
  - unfold ret at 1. pose proof (Hfn w1) as Hb.
    destruct (fn w1) as [[v|e|] w2]; cbn [snd] in Hb.
    + exists [CallActivate s' th; CallKill s' th]. split; [|by repeat constructor; auto].
      pose proof (kill_calls th s' w2) as Hk. unfold bind, ret.
      destruct (kill th s' w2) as [[[]|e'|] w3]; cbn [snd] in *;
        rewrite Hk, Hb, Ha; by rewrite <- app_assoc.
    + exists [CallActivate s' th; CallKill s' th]. split; [|by repeat constructor; auto].
      pose proof (kill_calls th s' w2) as Hk. unfold bind, ret, raise.
      destruct (kill th s' w2) as [[[]|e'|] w3]; cbn [snd truthy] in *;
        rewrite Hk, Hb, Ha; by rewrite <- app_assoc.
    + exists [CallActivate s' th]. split; [|by repeat constructor; auto].
      cbn [snd]. by rewrite Hb, Ha.
  - exists [CallActivate s' th]. split; [done|by repeat constructor; auto].
  - exists [CallActivate s' th]. split; [done|by repeat constructor; auto].
Qed.

Lemma other_scope_calls s s' th l :
  s' ≠ s →
  Forall (λ c, c = CallActivate s' th ∨ c = CallKill s' th) l →
  activations s l = 0 ∧ kills s l = 0.
Proof.
  intros Hne Hl. unfold activations, kills.
  induction Hl as [|c l [-> | ->] _ [IH1 IH2]]; [done|..]; simpl;
    by rewrite bool_decide_eq_false_2.
Qed.

Lemma own_scope_spec w f :
  own_scope w f = true ↔
  ∀ g fut, pool w !! g = Some fut → g = f ∨ Some (_scope fut) ≠ scope_of w f.
Proof.
  unfold own_scope. rewrite forallb_forall. split.
  - intros H g fut Hg. apply elem_of_map_to_list, list_elem_of_In, H in Hg.
    apply orb_true_iff in Hg as [Hg|Hg].
    + left. by apply bool_decide_eq_true_1 in Hg.
    + right. by apply negb_true_iff, bool_decide_eq_false_1 in Hg.
  - intros H [g fut] Hg%list_elem_of_In%elem_of_map_to_list. simpl.
    apply orb_true_iff. destruct (H g fut Hg) as [->|Hne].
    + left. by apply bool_decide_eq_true_2.
    + right. by apply negb_true_iff, bool_decide_eq_false_2.
Qed.

Lemma set_state_cancelled f s g st w w0 :
  pool w0 = pool w →
  cancelled w f = true → scope_of w f = Some s → own_scope w f = true →
  (g = f → st = CANCELLED ∨ st = CANCELLED_AND_NOTIFIED) →
  cancelled (set_state g st w0) f = true ∧
  scope_of (set_state g st w0) f = Some s ∧
  own_scope (set_state g st w0) f = true.
Proof.
  intros Hp Hc Hs Ho Hst.
  assert (∀ g', _scope <$> pool (set_state g st w0) !! g' = _scope <$> pool w !! g')
    as Hsame.
  { intros g'. rewrite pool_set_state, Hp. case_decide as Hg; [subst g'|done].
    by destruct (pool w !! g). }
  split; [|split].
  - unfold cancelled, state_of in *. rewrite pool_set_state, Hp.
    case_decide as Hg; [|done]. subst g.
    destruct (pool w !! f) as [fut|]; [|done]. simpl.
    by destruct (Hst eq_refl) as [-> | ->].
  - unfold scope_of in *. by rewrite Hsame.
  - apply own_scope_spec. rewrite own_scope_spec in Ho.
    intros g' fut' Hg'. unfold scope_of in *. rewrite Hsame.
    pose proof (Hsame g') as Hg''. rewrite Hg' in Hg''. simpl in Hg''.
    destruct (pool w !! g') as [fut|] eqn:E; [|done].
    injection Hg'' as Hg''. rewrite Hg''. by eapply Ho.
Qed.

Lemma worker_step_cancelled f s e w :
  cancelled w f = true → scope_of w f = Some s → own_scope w f = true →
  (cancelled (worker_step w e) f = true ∧
   scope_of (worker_step w e) f = Some s ∧
   own_scope (worker_step w e) f = true) ∧
  activations s (calls (worker_step w e)) = activations s (calls w) ∧
  kills s (calls (worker_step w e)) = kills s (calls w).
Proof.
  intros Hc Hs Ho. destruct e as [g|g th]; simpl.
  - assert (∀ st, (g = f → st = CANCELLED ∨ st = CANCELLED_AND_NOTIFIED) →
              (cancelled (set_state g st w) f = true ∧
               scope_of (set_state g st w) f = Some s ∧
               own_scope (set_state g st w) f = true) ∧
              activations s (calls (set_state g st w)) = activations s (calls w) ∧
              kills s (calls (set_state g st w)) = kills s (calls w)) as Hset.
    { intros st Hst. split; [|done]. by apply (set_state_cancelled f s g st w w). }
    destruct (state_of g w) as [[| | | |r]|] eqn:Eg; try done.
    + apply Hset. intros ->. unfold cancelled in Hc. by rewrite Eg in Hc.
    + apply Hset. auto.
  - destruct (pool w !! g) as [fut|] eqn:Eg; [|done].
    destruct (f_state fut) eqn:Est; try done.
    assert (g ≠ f) as Hgf.
    { intros ->. unfold cancelled, state_of in Hc. rewrite Eg in Hc. simpl in Hc.
      by rewrite Est in Hc. }
    assert (_scope fut ≠ s) as Hne.
    { rewrite own_scope_spec in Ho. destruct (Ho g fut Eg) as [?|Hne]; [done|].
      rewrite Hs in Hne. congruence. }
    destruct (run_calls th (_scope fut) (run_keyword th (f_fn fut)) w)
      as (l & Hl & Hfor).
    { apply keeps_run_keyword; frame. }
    destruct (other_scope_calls s (_scope fut) th l Hne Hfor) as [Ha Hk].
    assert (keeps pool (_run th (_scope fut) (run_keyword th (f_fn fut)))) as Hp.
    { apply keeps_run; [frame..|]. apply keeps_run_keyword; frame. }
    specialize (Hp w).
    destruct (_run th (_scope fut) (run_keyword th (f_fn fut)) w) as [[v|e|] w1];
      cbn [snd] in Hl, Hp.
    + split; [by apply (set_state_cancelled f s g _ w w1)|].
      change (calls (set_state g (FINISHED (Result v)) w1)) with (calls w1).
      rewrite Hl, activations_app, kills_app. lia.
    + split; [by apply (set_state_cancelled f s g _ w w1)|].
      change (calls (set_state g (FINISHED (Exception e)) w1)) with (calls w1).
      rewrite Hl, activations_app, kills_app. lia.
    + split.
      * unfold cancelled, state_of, scope_of in *. rewrite Hp.
        split; [done|]. split; [done|].
        apply own_scope_spec. rewrite own_scope_spec in Ho.
        unfold scope_of. rewrite Hp. apply Ho.
      * rewrite Hl, activations_app, kills_app. lia.
Qed.

(** X8. A cancelled item is never run.  Once a future is cancelled (by
    the drain at shutdown), whatever the pool does afterwards the future
    stays cancelled and no worker activates or kills its scope: taking a
    cancelled future off the queue only notifies it, and the workers that
    complete other items call into those items' own scopes. *)
Theorem cancelled_item_never_runs (f s : nat) (evs : list wevent) (w : world) :
  cancelled w f = true →
  scope_of w f = Some s →
  own_scope w f = true →
  let w' := run_workers evs w in
  cancelled w' f = true ∧
  scope_of w' f = Some s ∧
  activations s (calls w') = activations s (calls w) ∧
  kills s (calls w') = kills s (calls w).
Proof.
  intros Hc Hs Ho w'. subst w'. revert w Hc Hs Ho.
  induction evs as [|e evs IH]; intros w Hc Hs Ho; [done|].
  destruct (worker_step_cancelled f s e w Hc Hs Ho) as ((Hc1 & Hs1 & Ho1) & Ha & Hk).
  unfold run_workers in *. cbn [foldl].
  destruct (IH _ Hc1 Hs1 Ho1) as (H1 & H2 & H3 & H4).
  split; [done|]. split; [done|]. by rewrite H3, H4.
Qed.

Lemma cancelled_item_never_runs_witness :
  let w := (_wait_all 0 [] Demo.three_dispatched).2 in
  let w' := run_workers Demo.all_three w in
  cancelled w 1 = true ∧ scope_of w 1 = Some 1 ∧ own_scope w 1 = true ∧
  cancelled w' 1 = true ∧
  activations 1 (calls w') = activations 1 (calls w).
Proof.
  intros w w'.
  assert (cancelled w 1 = true) as Hc by by vm_compute.
  assert (scope_of w 1 = Some 1) as Hs by by vm_compute.
  assert (own_scope w 1 = true) as Ho by by vm_compute.
  destruct (cancelled_item_never_runs 1 1 Demo.all_three w Hc Hs Ho)
    as (H1 & _ & H3 & _).
  split; [exact Hc|]. split; [exact Hs|]. split; [exact Ho|].
  split; [exact H1|exact H3].
Defined.

End further.
